(** * tqlib, number_theory/prime.h: sieves, coprime pairs, trial division

    A shallow embedding of [src/number_theory/prime.h] and the proofs of
    its specification.  Integers of a C++ integer type are values of [Z]
    together with the description of the type ([int_type]); conversions
    and unsigned arithmetic wrap around explicitly; [std::vector] is a
    list of bounded length with bounds-checked access, an out-of-bounds
    access being undefined behaviour; loops take a budget of iterations. *)

From Stdlib Require Import ZArith Lia Bool Sorted.
From stdpp Require Import base tactics option list list_numbers.

Local Open Scope Z_scope.

(** ** Outcomes of a C++ computation *)

(** The exceptions of [<stdexcept>] that the code (and the standard
    library it calls) can raise, and the failure of [numeric_cast]. *)
Inductive exn : Set :=
| OutOfRange      (* std::out_of_range *)
| DomainError     (* std::domain_error *)
| OverflowError   (* std::overflow_error *)
| LengthError     (* std::length_error, raised by std::vector *)
| CastError.      (* numeric_cast of a value the target cannot hold *)

Inductive outcome (A : Type) : Type :=
| Ok (a : A)          (* normal return *)
| Throw (e : exn)     (* an exception leaves the function *)
| UB                  (* undefined behaviour was reached *)
| OutOfFuel.          (* the loop budget of the model ran out *)

Arguments Ok {A} a.
Arguments Throw {A} e.
Arguments UB {A}.
Arguments OutOfFuel {A}.

#[global] Instance outcome_ret : MRet outcome := fun A a => Ok a.
#[global] Instance outcome_bind : MBind outcome := fun A B k m =>
  match m with
  | Ok a => k a
  | Throw e => Throw e
  | UB => UB
  | OutOfFuel => OutOfFuel
  end.

(** ** Integer types *)

(** [std::numeric_limits<T>::is_signed] and [::digits] (the number of
    value bits, the sign bit not counted). *)
Record int_type : Set := IntType { it_signed : bool; it_digits : Z }.

Definition it_width (T : int_type) : Z :=
  it_digits T + (if it_signed T then 1 else 0).
Definition it_min (T : int_type) : Z :=
  if it_signed T then - 2 ^ it_digits T else 0.
Definition it_max (T : int_type) : Z := 2 ^ it_digits T - 1.

Definition in_range (T : int_type) (v : Z) : Prop := it_min T <= v <= it_max T.
Definition in_rangeb (T : int_type) (v : Z) : bool :=
  (it_min T <=? v) && (v <=? it_max T).

(** [static_cast<T>(v)]: the value of [T] congruent to [v] modulo
    [2 ^ width]. *)
Definition wrap (T : int_type) (v : Z) : Z :=
  if it_signed T
  then (v + 2 ^ it_digits T) mod 2 ^ it_width T - 2 ^ it_digits T
  else v mod 2 ^ it_width T.

(** [std::make_unsigned_t<T>]. *)
Definition make_unsigned (T : int_type) : int_type := IntType false (it_width T).

Definition int8_t : int_type := IntType true 7.
Definition uint8_t : int_type := IntType false 8.
Definition int16_t : int_type := IntType true 15.
Definition uint16_t : int_type := IntType false 16.
Definition int32_t : int_type := IntType true 31.
Definition uint32_t : int_type := IntType false 32.
Definition int64_t : int_type := IntType true 63.
Definition uint64_t : int_type := IntType false 64.
Definition int : int_type := int32_t.
Definition size_t : int_type := uint64_t.

(** Arithmetic in [int]: an overflow is undefined behaviour. *)
Definition int_arith (v : Z) : outcome Z :=
  if in_rangeb int v then Ok v else UB.

(** [std::bit_width] of an unsigned value: [1 + floor (log2 x)], and 0 for 0. *)
Definition bit_width (x : Z) : Z := if x =? 0 then 0 else Z.log2 x + 1.

(** Modelled from the spec: [numeric_cast] of number_theory/utility.h, which
    is not among the sources.  It converts a value to another integer type
    and fails if the value is not exactly representable there. *)
Definition numeric_cast (To : int_type) (v : Z) : outcome Z :=
  if in_rangeb To v then Ok v else Throw CastError.

(** Modelled from the spec: [unsigned_abs] of number_theory/utility.h, which
    is not among the sources.  It returns the magnitude of a value as an
    unsigned value of matching width, also for the most negative value of a
    signed type. *)
Definition unsigned_abs (T : int_type) (v : Z) : Z := wrap (make_unsigned T) (Z.abs v).

(** ** [std::vector] *)

(** What the implementation of the standard library fixes: [max_size ()],
    the largest number of elements a vector can hold (one bound for the
    vectors of the program; on an LP64 target it is at most [PTRDIFF_MAX],
    [2 ^ 63 - 1]).  A vector that would be larger is never built: the
    operation raises [std::length_error]. *)
Class vector_impl : Set := { max_size : Z }.

(** [std::vector<A> v (n, x)]. *)
Definition vector_new `{vector_impl} {A} (n : Z) (x : A) : outcome (list A) :=
  if n <=? max_size then Ok (replicate (Z.to_nat n) x) else Throw LengthError.

(** [v.push_back (x)] and [v.emplace_back (...)]. *)
Definition push_back `{vector_impl} {A} (v : list A) (x : A) : outcome (list A) :=
  if Z.of_nat (length v) <? max_size then Ok (v ++ [x]) else Throw LengthError.

(** [v[i]] read, for an index [i] already converted to [size_t]. *)
Definition vget {A} (v : list A) (i : Z) : outcome A :=
  if (0 <=? i) && (i <? Z.of_nat (length v))
  then match v !! Z.to_nat i with Some x => Ok x | None => UB end
  else UB.

(** [v[i] = x]. *)
Definition vset {A} (v : list A) (i : Z) (x : A) : outcome (list A) :=
  if (0 <=? i) && (i <? Z.of_nat (length v))
  then Ok (<[Z.to_nat i := x]> v) else UB.

(** Conversion of a value to [uint64_t] (and to [size_t], the same type
    here), as in [static_cast<uint64_t>], in unsigned arithmetic and when a
    value is used as a vector index. *)
Definition u64 (v : Z) : Z := wrap uint64_t v.

Arguments u64 : simpl never.
Arguments wrap : simpl never.

(** ** The sieve of Eratosthenes, [Sieve] (prime.h, lines 24-71) *)

Module Sieve.

Record t : Set := { num_limit_ : Z; is_prime_ : list bool }.

(** [for (uint64_t j = i * i; j <= num_limit_u64; j += i) is_prime_[j] = false;] *)
Fixpoint clear_multiples (fuel : nat) (num_limit_u64 i j : Z) (is_prime_ : list bool)
  : outcome (list bool) :=
  match fuel with
  | O => OutOfFuel
  | S fuel =>
      if j <=? num_limit_u64 then
        is_prime_ ← vset is_prime_ j false;
        clear_multiples fuel num_limit_u64 i (u64 (j + i)) is_prime_
      else Ok is_prime_
  end.

(** [for (uint64_t i = 2; i * i <= num_limit_u64; ++i)]; the inner loop
    gets the whole budget. *)
Fixpoint sieve_loop (fuel budget : nat) (num_limit_u64 i : Z) (is_prime_ : list bool)
  : outcome (list bool) :=
  match fuel with
  | O => OutOfFuel
  | S fuel =>
      if u64 (i * i) <=? num_limit_u64 then
        b ← vget is_prime_ i;
        if negb b then sieve_loop fuel budget num_limit_u64 (u64 (i + 1)) is_prime_
        else
          is_prime_ ← clear_multiples budget num_limit_u64 i (u64 (i * i)) is_prime_;
          sieve_loop fuel budget num_limit_u64 (u64 (i + 1)) is_prime_
      else Ok is_prime_
  end.

(** The constructor, [Sieve (num_limit)]. *)
Definition Sieve `{vector_impl} (fuel : nat) (num_limit : Z) : outcome t :=
  n ← numeric_cast size_t num_limit;
  is_prime_ ← vector_new (u64 (n + 1)) true;
  is_prime_ ← vset is_prime_ 0 false;
  is_prime_ ← vset is_prime_ 1 false;
  num_limit_u64 ← numeric_cast uint64_t num_limit;
  is_prime_ ← sieve_loop fuel fuel num_limit_u64 2 is_prime_;
  Ok {| num_limit_ := num_limit; is_prime_ := is_prime_ |}.

Definition get_limit (s : t) : Z := num_limit_ s.

(** [is_prime (number)]; the index [number] is converted to [size_t]. *)
Definition is_prime (s : t) (number : Z) : outcome bool :=
  if number <? 0 then Ok false
  else if number >? num_limit_ s then Throw OutOfRange
  else vget (is_prime_ s) (u64 number).

End Sieve.

(** ** The sieve of Euler, [EulerSieve] (prime.h, lines 76-151) *)

Module EulerSieve.

Record t : Set :=
  { num_limit_ : Z; min_prime_factor_ : list Z; primes_ : list Z }.

(** [check_overflow ()]; [MultType] is [uint64_t], of 64 digits. *)
Definition check_overflow (T : int_type) (num_limit_ : Z) : outcome unit :=
  let num_limit_width := bit_width (wrap (make_unsigned T) num_limit_) in
  if u64 (num_limit_width * 2) >? it_digits uint64_t
  then Throw OverflowError else Ok ().

(** [for (const T &prime : primes_)], on what is left of [primes_]. *)
Fixpoint mark_multiples (num_limit_ num : Z) (primes : list Z)
    (min_prime_factor_ : list Z) : outcome (list Z) :=
  match primes with
  | [] => Ok min_prime_factor_
  | prime :: primes =>
      m ← vget min_prime_factor_ (u64 num);
      if prime >? m then Ok min_prime_factor_
      else
        let x := u64 (u64 prime * u64 num) in
        if x >? u64 num_limit_ then Ok min_prime_factor_
        else
          min_prime_factor_ ← vset min_prime_factor_ x prime;
          mark_multiples num_limit_ num primes min_prime_factor_
  end.

(** [for (T num = 2; num <= num_limit_; ++num)].  [++num] is computed in
    [T]: past the largest value an unsigned [T] starts again at 0, and a
    signed [T] either overflows or (when narrower than [int]) continues
    with its least value, which then indexes the vector out of bounds;
    both are undefined behaviour. *)
Fixpoint sieve_loop `{vector_impl} (T : int_type) (fuel : nat) (num_limit_ num : Z)
    (min_prime_factor_ primes_ : list Z) : outcome (list Z * list Z) :=
  match fuel with
  | O => OutOfFuel
  | S fuel =>
      if num <=? num_limit_ then
        m ← vget min_prime_factor_ (u64 num);
        st ← (if m =? 0 then
                primes_ ← push_back primes_ num;
                min_prime_factor_ ← vset min_prime_factor_ (u64 num) num;
                Ok (min_prime_factor_, primes_)
              else Ok (min_prime_factor_, primes_));
        min_prime_factor_ ← mark_multiples num_limit_ num st.2 st.1;
        sieve_loop T fuel num_limit_ (wrap T (num + 1)) min_prime_factor_ st.2
      else Ok (min_prime_factor_, primes_)
  end.

(** The constructor, [EulerSieve (num_limit)]: the member initialisers
    run first, then the body.  The counter starts at 2, which every integer
    type that the class accepts holds. *)
Definition EulerSieve `{vector_impl} (T : int_type) (fuel : nat) (num_limit : Z)
  : outcome t :=
  n ← numeric_cast size_t num_limit;
  min_prime_factor_ ← vector_new (u64 (n + 1)) 0;
  _ ← check_overflow T num_limit;
  st ← sieve_loop T fuel num_limit 2 min_prime_factor_ [];
  Ok {| num_limit_ := num_limit; min_prime_factor_ := st.1; primes_ := st.2 |}.

Definition get_limit (s : t) : Z := num_limit_ s.

Definition primes (s : t) : list Z := primes_ s.

(** [min_prime_factor (number)]. *)
Definition min_prime_factor (T : int_type) (s : t) (number : Z) : outcome Z :=
  let abs_num := unsigned_abs T number in
  if abs_num <=? 1 then Throw DomainError
  else if abs_num >? wrap (make_unsigned T) (num_limit_ s) then Throw OutOfRange
  else vget (min_prime_factor_ s) (u64 abs_num).

End EulerSieve.

(** ** [coprime_pairs] (prime.h, lines 155-188) *)

(** The lambda [add_pair], on the captured vector. *)
Definition add_pair `{vector_impl} (T : int_type) (num_limit_u64 : Z)
    (pairs : list (Z * Z)) (x y : Z) : outcome (list (Z * Z)) :=
  if x <=? num_limit_u64 then push_back pairs (wrap T x, wrap T y) else Ok pairs.

(** [while (visited < pairs.size ())]; [x] and [y] are copied out of
    [pairs[visited]] before the vector grows. *)
Fixpoint coprime_loop `{vector_impl} (T : int_type) (fuel : nat) (num_limit_u64 : Z)
    (visited : Z) (pairs : list (Z * Z)) : outcome (list (Z * Z)) :=
  match fuel with
  | O => OutOfFuel
  | S fuel =>
      if visited <? Z.of_nat (length pairs) then
        current ← vget pairs visited;
        let x := u64 current.1 in
        let y := u64 current.2 in
        pairs ← add_pair T num_limit_u64 pairs (u64 (u64 (2 * x) - y)) x;
        pairs ← add_pair T num_limit_u64 pairs (u64 (u64 (2 * x) + y)) x;
        pairs ← add_pair T num_limit_u64 pairs (u64 (x + u64 (2 * y))) y;
        coprime_loop T fuel num_limit_u64 (u64 (visited + 1)) pairs
      else Ok pairs
  end.

Definition coprime_pairs `{vector_impl} (T : int_type) (fuel : nat) (num_limit : Z)
  : outcome (list (Z * Z)) :=
  if num_limit <=? 0 then Ok []
  else
    num_limit_u64 ← numeric_cast uint64_t num_limit;
    pairs ← add_pair T num_limit_u64 [] 2 1;
    pairs ← add_pair T num_limit_u64 pairs 3 1;
    pairs ← coprime_loop T fuel num_limit_u64 0 pairs;
    pairs ← add_pair T num_limit_u64 pairs 1 0;
    add_pair T num_limit_u64 pairs 1 1.

(** ** The bounded primality test, [is_prime] (prime.h, lines 198-207) *)

(** The loop [for (int i = 2; i * i <= number; ++i)]; [number] has been
    promoted to [int], and [%] truncates ([Z.rem]). *)
Fixpoint is_prime_loop (fuel : nat) (number i : Z) : outcome bool :=
  match fuel with
  | O => OutOfFuel
  | S fuel =>
      sq ← int_arith (i * i);
      if sq <=? number then
        if Z.rem number i =? 0 then Ok false
        else i' ← int_arith (i + 1); is_prime_loop fuel number i'
      else Ok true
  end.

Definition is_prime (fuel : nat) (number : Z) : outcome bool :=
  if number <? 2 then Ok false else is_prime_loop fuel number 2.

(** ** Divisors and primes *)

(** [n] has a divisor [i] with [2 <= i] and [i * i <= n]. *)
Definition small_divisor (n : Z) : Prop :=
  exists i, 2 <= i /\ i * i <= n /\ (i | n).

(** The state of the flags of [Sieve] when the candidates below [i] have
    been handled: [m] is struck out if it is below 2 or has a divisor [d]
    below [i] with [d * d <= m]. *)
Definition struck (i m : Z) : Prop :=
  m < 2 \/ exists d, 2 <= d < i /\ d * d <= m /\ (d | m).

Definition sieve_inv (L i : Z) (v : list bool) : Prop :=
  Z.of_nat (length v) = L + 1 /\
  forall m, 0 <= m <= L -> v !! Z.to_nat m = Some false <-> struck i m.

(** The flags of a finished [Sieve]. *)
Definition sieve_done (L : Z) (v : list bool) : Prop :=
  Z.of_nat (length v) = L + 1 /\
  forall m, 0 <= m <= L -> v !! Z.to_nat m = Some false <-> m < 2 \/ small_divisor m.

(** The least divisor of [n] that is at least 2, by search from [d]. *)
Fixpoint find_divisor (fuel : nat) (n d : Z) : Z :=
  match fuel with
  | O => n
  | S fuel => if n mod d =? 0 then d else find_divisor fuel n (d + 1)
  end.

(** The least prime factor of [n], for [2 <= n]. *)
Definition lpf (n : Z) : Z := find_divisor (Z.to_nat (n - 2)) n 2.

(** [p] is the least prime dividing [n]. *)
Definition least_prime_factor (n p : Z) : Prop :=
  Z.prime p /\ (p | n) /\ forall q, Z.prime q -> (q | n) -> p <= q.

(** The primes in [[a, b]], in ascending order. *)
Definition primes_between (a b : Z) : list Z :=
  filter (fun p => lpf p = p) (seqZ a (b - a + 1)).

(** The entries of [min_prime_factor_] that the linear sieve has written
    when the candidates below [k] have been handled: those of the numbers
    below [k] and of the composites whose cofactor is below [k]. *)
Definition settled (k m : Z) : Prop :=
  2 <= m /\ (m < k \/ 2 <= m / lpf m < k).

(** The entries written while the candidate [k] is handled and the primes
    below [b] have been used. *)
Definition settling (k b m : Z) : Prop :=
  settled k m \/ m = k \/ (2 <= m /\ m / lpf m = k /\ lpf m < b).

(** The entries written are least prime factors, the others still 0. *)
Definition entries (P : Z -> Prop) (L : Z) (mpf : list Z) : Prop :=
  Z.of_nat (length mpf) = L + 1 /\
  forall m, 0 <= m <= L ->
    (P m -> mpf !! Z.to_nat m = Some (lpf m)) /\
    (~ P m -> mpf !! Z.to_nat m = Some 0).

Definition euler_inv (L k : Z) (st : list Z * list Z) : Prop :=
  entries (settled k) L st.1 /\ st.2 = primes_between 2 (k - 1).

(** An implementation whose vectors hold up to [PTRDIFF_MAX] elements. *)
Definition lp64 : vector_impl := {| max_size := 2 ^ 63 - 1 |}.

(** What a constructed [EulerSieve] holds. *)
Definition euler_built (L : Z) (s : EulerSieve.t) : Prop :=
  EulerSieve.num_limit_ s = L /\ 0 <= L < 2 ^ 32 /\
  Z.of_nat (length (EulerSieve.min_prime_factor_ s)) = L + 1 /\
  (forall m, 2 <= m <= L -> EulerSieve.min_prime_factor_ s !! Z.to_nat m = Some (lpf m)) /\
  EulerSieve.primes_ s = primes_between 2 L.

(** The overflow guard as the specification words it: the constructor
    raises [OverflowError] exactly when twice the bit width of the limit
    exceeds the 64 bits of [MultType]. *)
Definition overflow_guard_claim `{vector_impl} (T : int_type) (fuel : nat) (L : Z) : Prop :=
  EulerSieve.EulerSieve T fuel L = Throw OverflowError <->
  64 < 2 * bit_width (wrap (make_unsigned T) L).

(** The three children of a pair in the tree of coprime pairs. *)
Definition children (p : Z * Z) : list (Z * Z) :=
  [(2 * p.1 - p.2, p.1); (2 * p.1 + p.2, p.1); (p.1 + 2 * p.2, p.2)].

(** The pair of which [p] is a child. *)
Definition parent (p : Z * Z) : Z * Z :=
  if p.1 <? 2 * p.2 then (p.2, 2 * p.2 - p.1)
  else if p.1 <? 3 * p.2 then (p.2, p.1 - 2 * p.2)
  else (p.1 - 2 * p.2, p.2).

(** The pairs of the tree: coprime, the first component the larger. *)
Definition tree_node (p : Z * Z) : Prop :=
  1 <= p.2 < p.1 /\ Z.gcd p.1 p.2 = 1.

(** The two roots the loop starts from. *)
Definition seeds : list (Z * Z) := [(2, 1); (3, 1)].

(** The children as [coprime_pairs] computes them, in [uint64_t]. *)
Definition children64 (p : Z * Z) : list (Z * Z) :=
  [(u64 (u64 (2 * p.1) - p.2), p.1); (u64 (u64 (2 * p.1) + p.2), p.1);
   (u64 (p.1 + u64 (2 * p.2)), p.2)].

(** The children that [add_pair] appends: those whose first component is
    at most the limit. *)
Definition accepted (L : Z) (cs : list (Z * Z)) : list (Z * Z) :=
  filter (fun c => c.1 <= L) cs.

(** Pairs with both components in [[0, L]]. *)
Definition in_box (L : Z) (p : Z * Z) : Prop := 0 <= p.1 <= L /\ 0 <= p.2 <= L.

(** The run of the work-list loop as a step relation: from the cursor
    [visited] on the list [pairs] to the final list. *)
Inductive bfs (L : Z) : Z -> list (Z * Z) -> list (Z * Z) -> Prop :=
| bfs_done visited pairs :
    Z.of_nat (length pairs) <= visited -> bfs L visited pairs pairs
| bfs_step visited pairs current final :
    0 <= visited ->
    pairs !! Z.to_nat visited = Some current ->
    bfs L (visited + 1) (pairs ++ accepted L (children64 current)) final ->
    bfs L visited pairs final.

(** The invariant of the loop while no child overflows [uint64_t]: the
    list has no repeats, holds tree nodes up to [L], and every pair but the
    roots comes after its parent, which the cursor has passed. *)
Definition bfs_inv (L visited : Z) (pairs : list (Z * Z)) : Prop :=
  0 <= visited <= Z.of_nat (length pairs) /\
  NoDup pairs /\
  (forall p, p ∈ pairs -> tree_node p /\ p.1 <= L) /\
  (forall j p, pairs !! j = Some p ->
     p ∈ seeds \/
     exists i, (i < j)%nat /\ Z.of_nat i < visited /\ pairs !! i = Some (parent p)).

(** A computation that came to an end within the budget, by a normal
    return or by an exception, without undefined behaviour. *)
Definition halted {A} (r : outcome A) : Prop :=
  match r with
  | Ok _ | Throw _ => True
  | UB | OutOfFuel => False
  end.

(** The two boundary pairs that [coprime_pairs] appends at the end. *)
Definition boundary : list (Z * Z) := [(1, 0); (1, 1)].

(** A call that returns: some budget suffices for it to end with a value,
    and every larger budget gives the same value. *)
Definition returns {A} (run : nat -> outcome A) : Prop :=
  exists fuel a, forall fuel', (fuel <= fuel')%nat -> run fuel' = Ok a.

(** The brute-force scan of the pairs [(x, y)] with [0 <= y <= x <= L],
    row by row, of which it keeps the coprime ones, and their number. *)
Definition box_pairs (L : Z) : list (Z * Z) :=
  x ← seqZ 0 (L + 1); (fun y => (x, y)) <$> seqZ 0 (x + 1).

Definition coprime_list (L : Z) : list (Z * Z) :=
  filter (fun p => Z.gcd p.1 p.2 = 1) (box_pairs L).

Definition coprime_count (L : Z) : Z := Z.of_nat (length (coprime_list L)).

(** * Proofs *)

Lemma prime_no_small_divisor n : Z.prime n -> ~ small_divisor n.
Proof.
  intros [Hn Hp] (i & Hi & Hsq & Hd). apply (Hp i); [nia|done].
Qed.

Lemma no_small_divisor_prime n : 2 <= n -> ~ small_divisor n -> Z.prime n.
Proof.
  intros Hn Hns. split; [lia|]. intros d Hd [q Hq].
  assert (0 < q) by nia.
  destruct (Z_le_gt_dec d q) as [Hle|Hgt].
  - apply Hns. exists d. repeat split; [lia|nia|]. by exists q.
  - assert (2 <= q) by nia.
    apply Hns. exists q. repeat split; [lia|nia|]. exists d. lia.
Qed.

Lemma prime_iff_no_small_divisor n : 2 <= n -> Z.prime n <-> ~ small_divisor n.
Proof.
  intros Hn. split; [apply prime_no_small_divisor|by apply no_small_divisor_prime].
Qed.

(** ** Trial division is a primality test *)

Section trial_division.

Lemma int_arith_ok v : - 2 ^ 31 <= v <= 2 ^ 31 - 1 -> int_arith v = Ok v.
Proof.
  intros Hv. unfold int_arith, in_rangeb, it_min, it_max; simpl.
  rewrite (proj2 (Z.leb_le _ _)), (proj2 (Z.leb_le _ _)); [done|lia..].
Qed.

(** The loop scans the candidates [i, i+1, ...] in order: started at [i]
    with no divisor below [i], it answers whether a small divisor exists. *)
Lemma is_prime_loop_spec fuel number i :
  2 <= i -> 2 <= number < 2 ^ 16 -> (i - 1) * (i - 1) <= number ->
  (forall d, 2 <= d < i -> ~ (d | number)) ->
  (Z.to_nat (257 - i) <= fuel)%nat ->
  exists b, is_prime_loop fuel number i = Ok b /\
            (b = false <-> small_divisor number).
Proof.
  revert i. induction fuel as [|fuel IH]; intros i Hi Hn Hprev Hnd Hfuel.
  - assert (256 < i) by lia. exfalso. nia.
  - assert (i <= 256) by nia.
    simpl. rewrite (int_arith_ok (i * i)) by nia. simpl.
    destruct (Z.leb_spec (i * i) number) as [Hsq|Hsq].
    + destruct (Z.eqb_spec (Z.rem number i) 0) as [Hrem|Hrem].
      * exists false. split; [done|]. split; [|done]. intros _.
        exists i. repeat split; [done..|].
        apply Z.rem_divide; [lia|done].
      * rewrite (int_arith_ok (i + 1)) by lia. simpl.
        apply IH; [lia|done|by replace (i + 1 - 1) with i by lia| |lia].
        intros d Hd Hdiv. destruct (Z.eq_dec d i) as [->|]; [|apply (Hnd d); [lia|done]].
        apply Hrem. apply Z.rem_divide; [lia|done].
    + exists true. split; [done|]. split; [done|].
      intros (d & Hd & Hdsq & Hdiv). exfalso.
      destruct (Z_lt_le_dec d i); [by apply (Hnd d)|nia].
Qed.

End trial_division.

(** C7.  For a type [T] of at most 16 value bits and every [number] of that
    type, [is_prime] returns (with a budget of 255 iterations or more):
    [false] if [number < 2]; otherwise [false] exactly when some [i] with
    [2 <= i] and [i * i <= number] divides [number], and [true] exactly when
    [number] is prime.  In particular it answers false, true, false, true
    on 1, 2, 15 and 9973. *)
Theorem is_prime_trial_division (T : int_type) (number : Z) (fuel : nat) :
  it_digits T <= 16 -> in_range T number -> (255 <= fuel)%nat ->
  exists b, is_prime fuel number = Ok b /\
    (number < 2 -> b = false) /\
    (2 <= number -> (b = false <-> small_divisor number) /\ (b = true <-> Z.prime number)) /\
    is_prime fuel 1 = Ok false /\ is_prime fuel 2 = Ok true /\
    is_prime fuel 15 = Ok false /\ is_prime fuel 9973 = Ok true.
Proof.
  intros HT [_ Hmax] Hfuel.
  assert (Hlt : number < 2 ^ 16).
  { unfold it_max in Hmax.
    assert (2 ^ it_digits T <= 2 ^ 16); [|lia].
    destruct (Z_lt_le_dec (it_digits T) 0).
    - rewrite Z.pow_neg_r by done. lia.
    - apply Z.pow_le_mono_r; lia. }
  assert (Hload : forall n, 2 <= n < 2 ^ 16 ->
    exists b, is_prime fuel n = Ok b /\ (b = false <-> small_divisor n)).
  { intros n Hn. unfold is_prime.
    destruct (Z.ltb_spec n 2); [lia|].
    apply is_prime_loop_spec; [lia|done|lia| |lia]. intros d Hd. lia. }
  assert (Hex : forall n b, 2 <= n < 2 ^ 16 -> (b = false <-> small_divisor n) ->
    (exists b', is_prime fuel n = Ok b' /\ (b' = false <-> small_divisor n)) ->
    is_prime fuel n = Ok b).
  { intros n b Hn Hb (b' & -> & Hb'). f_equal.
    destruct b, b'; try done; exfalso; [assert (true = false) by (apply Hb, Hb'; done)|assert (true = false) by (apply Hb', Hb; done)]; done. }
  assert (H2 : ~ small_divisor 2) by (intros (i & ? & ? & ?); nia).
  assert (H15 : small_divisor 15) by (exists 3; repeat split; [lia..|by exists 5]).
  assert (H9973 : ~ small_divisor 9973).
  { intros (i & Hi & Hsq & Hd). assert (i < 100) by nia.
    apply Z.mod_divide in Hd; [|lia].
    assert (Hall : forallb (fun i => negb (9973 mod i =? 0)) (seqZ 2 98) = true)
      by (vm_compute; reflexivity).
    rewrite forallb_forall in Hall.
    assert (Hin : In i (seqZ 2 98)) by (apply list_elem_of_In, elem_of_seqZ; lia).
    apply Hall in Hin. rewrite Hd in Hin. done. }
  assert (Hrest : is_prime fuel 1 = Ok false /\ is_prime fuel 2 = Ok true /\
    is_prime fuel 15 = Ok false /\ is_prime fuel 9973 = Ok true).
  { split; [done|]. split; [|split].
    - apply Hex; [lia| |apply Hload; lia]. split; [done|tauto].
    - apply Hex; [lia| |apply Hload; lia]. tauto.
    - apply Hex; [lia| |apply Hload; lia]. split; [done|tauto]. }
  destruct (Z_lt_le_dec number 2) as [Hsmall|Hbig].
  - exists false. unfold is_prime at 1.
    destruct (Z.ltb_spec number 2); [|lia].
    split; [done|]. split; [done|]. split; [lia|done].
  - destruct (Hload number) as (b & Hrun & Hb); [lia|].
    exists b. split; [done|]. split; [lia|]. split; [|done].
    intros _. split; [done|].
    rewrite prime_iff_no_small_divisor by done.
    destruct b.
    + split; [|done]. intros _ Hsd. by apply Hb in Hsd.
    + split; [done|]. intros Hns. exfalso. apply Hns, Hb. done.
Qed.

Lemma is_prime_trial_division_witness :
  exists b, is_prime 255 9973 = Ok b /\
    (9973 < 2 -> b = false) /\
    (2 <= 9973 -> (b = false <-> small_divisor 9973) /\ (b = true <-> Z.prime 9973)) /\
    is_prime 255 1 = Ok false /\ is_prime 255 2 = Ok true /\
    is_prime 255 15 = Ok false /\ is_prime 255 9973 = Ok true.
Proof.
  apply (is_prime_trial_division int16_t 9973 255).
  - simpl. lia.
  - unfold in_range, it_min, it_max. simpl. lia.
  - lia.
Defined.

(** ** Conversions and vectors *)

Section basics.

Lemma u64_small v : 0 <= v < 2 ^ 64 -> u64 v = v.
Proof. intros Hv. unfold u64, wrap; simpl. by apply Z.mod_small. Qed.

Lemma u64_range v : 0 <= u64 v < 2 ^ 64.
Proof. unfold u64, wrap; simpl. by apply Z.mod_pos_bound. Qed.

Lemma in_rangeb_spec T v : in_rangeb T v = true <-> in_range T v.
Proof. unfold in_rangeb, in_range. rewrite andb_true_iff, !Z.leb_le. done. Qed.

Lemma numeric_cast_Ok To v r : numeric_cast To v = Ok r -> r = v /\ in_range To v.
Proof.
  unfold numeric_cast. destruct (in_rangeb To v) eqn:E; [|done].
  intros [= <-]. by apply in_rangeb_spec in E.
Qed.

Lemma numeric_cast_in_range To v : in_range To v -> numeric_cast To v = Ok v.
Proof. intros H%in_rangeb_spec. unfold numeric_cast. by rewrite H. Qed.

Lemma in_range_u64 v : in_range uint64_t v <-> 0 <= v < 2 ^ 64.
Proof. unfold in_range, it_min, it_max; simpl. lia. Qed.

Lemma in_range_digits T v : in_range T v -> 0 <= it_digits T.
Proof.
  unfold in_range, it_min, it_max. intros Hv.
  destruct (Z_lt_le_dec (it_digits T) 0) as [Hneg|]; [|done].
  rewrite Z.pow_neg_r in Hv by done. destruct (it_signed T); lia.
Qed.

Lemma wrap_in_range T v : in_range T v -> wrap T v = v.
Proof.
  intros Hv. pose proof (in_range_digits T v Hv) as Hd. revert Hv.
  unfold in_range, it_min, it_max, wrap, it_width.
  assert (0 < 2 ^ it_digits T) by by apply Z.pow_pos_nonneg.
  destruct (it_signed T); intros Hv.
  - rewrite Z.pow_add_r by lia. rewrite Z.mod_small by lia. lia.
  - rewrite Z.add_0_r. apply Z.mod_small. lia.
Qed.

Lemma wrap_range T v : 0 <= it_digits T -> in_range T (wrap T v).
Proof.
  intros Hd. unfold in_range, it_min, it_max, wrap, it_width.
  assert (0 < 2 ^ it_digits T) by by apply Z.pow_pos_nonneg.
  destruct (it_signed T).
  - rewrite Z.pow_add_r by lia.
    pose proof (Z.mod_pos_bound (v + 2 ^ it_digits T) (2 ^ it_digits T * 2 ^ 1)). lia.
  - rewrite Z.add_0_r. pose proof (Z.mod_pos_bound v (2 ^ it_digits T)). lia.
Qed.

Lemma it_min_nonpos T : it_min T <= 0.
Proof.
  unfold it_min. destruct (it_signed T); [|done].
  pose proof (Z.pow_nonneg 2 (it_digits T)). lia.
Qed.

Lemma in_range_nonneg T L a : in_range T L -> 0 <= a <= L -> in_range T a.
Proof. intros [_ ?] ?. pose proof (it_min_nonpos T). unfold in_range. lia. Qed.

Context {A : Type}.
Implicit Types (v : list A) (i : Z) (x : A).

Lemma vget_Ok v i x :
  vget v i = Ok x <-> 0 <= i /\ v !! Z.to_nat i = Some x.
Proof.
  unfold vget.
  destruct (Z.leb_spec 0 i); simpl; [|split; [done|lia]].
  destruct (Z.ltb_spec i (Z.of_nat (length v))) as [Hlt|Hge].
  - destruct (v !! Z.to_nat i) eqn:E; [split; [intros [= ->]|intros [_ [= ->]]]; done|].
    split; [done|]. by intros [_ ?].
  - split; [done|]. intros [_ Hl]. apply lookup_lt_Some in Hl. lia.
Qed.

Lemma vget_lookup v i x : 0 <= i -> v !! Z.to_nat i = Some x -> vget v i = Ok x.
Proof. intros. by apply vget_Ok. Qed.

Lemma vget_defined v i r :
  0 <= i < Z.of_nat (length v) -> vget v i = r -> exists x, r = Ok x /\ v !! Z.to_nat i = Some x.
Proof.
  intros Hi <-. destruct (lookup_lt_is_Some_2 v (Z.to_nat i)) as [x Hx]; [lia|].
  exists x. split; [|done]. apply vget_lookup; [lia|done].
Qed.

Lemma vset_in_bounds v i x :
  0 <= i < Z.of_nat (length v) -> vset v i x = Ok (<[Z.to_nat i := x]> v).
Proof.
  intros Hi. unfold vset.
  destruct (Z.leb_spec 0 i); [|lia].
  destruct (Z.ltb_spec i (Z.of_nat (length v))); [done|lia].
Qed.

Lemma vset_Ok v i x v' :
  vset v i x = Ok v' -> 0 <= i < Z.of_nat (length v) /\ v' = <[Z.to_nat i := x]> v.
Proof.
  unfold vset.
  destruct (Z.leb_spec 0 i); [|done].
  destruct (Z.ltb_spec i (Z.of_nat (length v))); [|done].
  simpl. intros [= <-]. done.
Qed.

Lemma vset_out_of_bounds v i x : Z.of_nat (length v) <= i -> vset v i x = UB.
Proof.
  intros Hi. unfold vset.
  destruct (Z.ltb_spec i (Z.of_nat (length v))); [lia|]. by rewrite andb_false_r.
Qed.

(** Reading an updated vector, with indices in [Z]. *)
Lemma lookup_insert_Z v i j x :
  0 <= i < Z.of_nat (length v) -> 0 <= j ->
  <[Z.to_nat i := x]> v !! Z.to_nat j = if decide (j = i) then Some x else v !! Z.to_nat j.
Proof.
  intros Hi Hj. case_decide as Hij.
  - subst j. apply list_lookup_insert_eq. lia.
  - apply list_lookup_insert_ne. lia.
Qed.

End basics.

Lemma bind_Ok {A B} (m : outcome A) (k : A -> outcome B) r :
  m ≫= k = Ok r -> exists a, m = Ok a /\ k a = Ok r.
Proof. destruct m; simpl; [|done..]. intros. by eexists. Qed.

(** Splits a successful sequence of steps into its successful steps. *)
Ltac inv_bind H :=
  repeat match type of H with
  | _ ≫= _ = Ok _ =>
      let a := fresh "a" in let Ha := fresh "Hstep" in
      apply bind_Ok in H as (a & Ha & H)
  end.

(** ** The sieve of Eratosthenes *)

Section sieve.

Implicit Types (v : list bool) (L i j m : Z).

(** The inner loop strikes out [j], [j + i], [j + 2 i], ... up to [L]. *)
Lemma clear_multiples_spec fuel L i j v :
  2 <= i -> 0 <= j <= L + i -> L + i < 2 ^ 64 -> Z.of_nat (length v) = L + 1 ->
  match Sieve.clear_multiples fuel L i j v with
  | Ok v' =>
      length v' = length v /\
      forall m, 0 <= m <= L ->
        v' !! Z.to_nat m = Some false <->
        v !! Z.to_nat m = Some false \/ (j <= m /\ (i | m - j))
  | OutOfFuel => (fuel <= Z.to_nat (L + i - j))%nat
  | _ => False
  end.
Proof.
  revert j v. induction fuel as [|fuel IH]; intros j v Hi Hj HL Hlen; simpl; [lia|].
  destruct (Z.leb_spec j L) as [HjL|HjL].
  - rewrite vset_in_bounds by lia. simpl. rewrite u64_small by lia.
    specialize (IH (j + i) (<[Z.to_nat j := false]> v)).
    rewrite length_insert in IH.
    specialize (IH Hi ltac:(lia) HL Hlen).
    destruct (Sieve.clear_multiples fuel L i (j + i) _) as [v'| | |]; [|done..|lia].
    destruct IH as [Hlen' Hv']. split; [done|].
    intros m Hm. rewrite Hv' by done. rewrite lookup_insert_Z by lia.
    case_decide as Hmj.
    + subst m. split; [intros _|by left]. right. split; [lia|]. exists 0. lia.
    + split.
      * intros [?|[? [k Hk]]]; [by left|]. right. split; [lia|]. exists (k + 1). lia.
      * intros [?|[? [k Hk]]]; [by left|]. right.
        assert (1 <= k) by nia. split; [nia|]. exists (k - 1). lia.
  - split; [done|]. intros m Hm. split; [by left|]. intros [?|[? _]]; [done|lia].
Qed.

Lemma struck_mono i i' m : i <= i' -> struck i m -> struck i' m.
Proof.
  intros Hi [?|(d & Hd & ? & ?)]; [by left|]. right. exists d. split; [lia|done].
Qed.

(** A candidate that is still flagged when its turn comes is prime, and a
    candidate that is struck out has a smaller divisor, whose multiples have
    been struck out already. *)
Lemma struck_composite i m :
  2 <= i -> struck i i -> struck (i + 1) m -> struck i m.
Proof.
  intros Hi [?|(d & Hd & Hdd & [q Hq])] [?|(e & He & Hee & Hem)]; [lia|lia|by left|].
  destruct (Z.eq_dec e i) as [->|]; [|right; exists e; split; [lia|done]].
  destruct Hem as [r Hr].
  right. exists d. split; [lia|]. split; [nia|]. exists (r * q). lia.
Qed.

Lemma sieve_loop_spec fuel budget L i v :
  1 <= L < 2 ^ 63 -> 2 <= i -> (i - 1) * (i - 1) <= L -> sieve_inv L i v ->
  match Sieve.sieve_loop fuel budget L i v with
  | Ok v' => sieve_done L v'
  | OutOfFuel => (fuel <= Z.to_nat (L + 1 - i))%nat \/ (budget <= Z.to_nat (L + 1))%nat
  | _ => False
  end.
Proof.
  revert i v. induction fuel as [|fuel IH]; intros i v HL Hi Hprev [Hlen Hinv]; simpl; [lia|].
  assert (Hi32 : i < 2 ^ 32) by nia.
  rewrite (u64_small (i * i)) by nia.
  destruct (Z.leb_spec (i * i) L) as [Hsq|Hsq].
  - assert (HiL : i <= L) by nia.
    destruct (vget_defined v i _ ltac:(lia) eq_refl) as (b & -> & Hb). simpl.
    rewrite (u64_small (i + 1)) by lia.
    destruct b; simpl.
    + pose proof (clear_multiples_spec budget L i (i * i) v) as Hin.
      specialize (Hin Hi ltac:(nia) ltac:(lia) Hlen).
      destruct (Sieve.clear_multiples budget L i (i * i) v) as [v'| | |]; [|done..|].
      2:{ simpl. right. nia. }
      destruct Hin as [Hlen' Hv']. simpl.
      assert (Hinv' : sieve_inv L (i + 1) v').
      { split; [lia|]. intros m Hm. rewrite Hv', Hinv by done. split.
        - intros [H|[? [k Hk]]]; [revert H; apply struck_mono; lia|].
          right. exists i. split; [lia|]. split; [lia|]. exists (k + i). lia.
        - intros [?|(d & Hd & Hdd & Hdm)]; [by left; left|].
          destruct (Z.eq_dec d i) as [->|]; [|left; right; exists d; split; [lia|done]].
          destruct Hdm as [q Hq]. right. split; [done|]. exists (q - i). lia. }
      specialize (IH (i + 1) v' HL ltac:(lia)).
      replace (i + 1 - 1) with i in IH by lia. specialize (IH ltac:(nia) Hinv').
      destruct (Sieve.sieve_loop fuel budget L (i + 1) v') as [v''| | |]; [done..|lia].
    + assert (Hinv' : sieve_inv L (i + 1) v).
      { split; [done|]. intros m Hm. rewrite Hinv by done.
        split; [apply struck_mono; lia|].
        apply struck_composite; [done|]. apply Hinv; [lia|done]. }
      specialize (IH (i + 1) v HL ltac:(lia)).
      replace (i + 1 - 1) with i in IH by lia. specialize (IH ltac:(nia) Hinv').
      destruct (Sieve.sieve_loop fuel budget L (i + 1) v) as [v''| | |]; [done..|lia].
  - split; [done|]. intros m Hm. rewrite Hinv by done. split.
    + intros [?|(d & Hd & ? & ?)]; [by left|]. right. exists d. split; [lia|done].
    + intros [?|(d & Hd & ? & ?)]; [by left|]. right. exists d. split; [nia|done].
Qed.

End sieve.

(** ** The least prime factor *)

Section lpf.

Implicit Types (n d e p k m : Z).

Lemma find_divisor_spec fuel n d :
  2 <= d -> d + Z.of_nat fuel = n -> (forall e, 2 <= e < d -> ~ (e | n)) ->
  d <= find_divisor fuel n d <= n /\ (find_divisor fuel n d | n) /\
  forall e, 2 <= e < find_divisor fuel n d -> ~ (e | n).
Proof.
  revert d. induction fuel as [|fuel IH]; intros d Hd Hn Hnd; simpl.
  - replace d with n in * by lia. split; [lia|]. split; [done|]. done.
  - destruct (Z.eqb_spec (n mod d) 0) as [Hmod|Hmod].
    + split; [lia|]. split; [|done]. apply Z.mod_divide; [lia|done].
    + destruct (IH (d + 1)) as (Hr & Hdiv & Hleast); [lia|lia| |].
      * intros e He Hdiv. destruct (Z.eq_dec e d) as [->|]; [|apply (Hnd e); [lia|done]].
        apply Hmod. apply Z.mod_divide; [lia|done].
      * split; [lia|]. done.
Qed.

Lemma lpf_spec n :
  2 <= n -> 2 <= lpf n <= n /\ (lpf n | n) /\ forall e, 2 <= e < lpf n -> ~ (e | n).
Proof.
  intros Hn. unfold lpf. apply find_divisor_spec; [lia|lia|]. intros e He. lia.
Qed.

Lemma lpf_range n : 2 <= n -> 2 <= lpf n <= n.
Proof. intros Hn. by apply lpf_spec. Qed.

Lemma lpf_divide n : 2 <= n -> (lpf n | n).
Proof. intros Hn. by apply lpf_spec. Qed.

Lemma lpf_least n e : 2 <= n -> 2 <= e -> (e | n) -> lpf n <= e.
Proof.
  intros Hn He Hdiv. destruct (Z_le_gt_dec (lpf n) e); [done|].
  exfalso. destruct (lpf_spec n Hn) as (_ & _ & Hleast). apply (Hleast e); [lia|done].
Qed.

Lemma lpf_prime n : 2 <= n -> Z.prime (lpf n).
Proof.
  intros Hn. pose proof (lpf_range n Hn). split; [lia|].
  intros e He Hdiv. destruct (lpf_spec n Hn) as (_ & Hd & Hleast).
  apply (Hleast e); [lia|]. by etrans.
Qed.

Lemma lpf_unique n p :
  2 <= n -> 2 <= p -> (p | n) -> (forall e, 2 <= e -> (e | n) -> p <= e) -> lpf n = p.
Proof.
  intros Hn Hp Hdiv Hleast.
  pose proof (lpf_least n p Hn Hp Hdiv).
  pose proof (Hleast (lpf n) (proj1 (lpf_range n Hn)) (lpf_divide n Hn)). lia.
Qed.

Lemma lpf_of_prime p : Z.prime p -> lpf p = p.
Proof.
  intros [Hp Hnd]. apply lpf_unique; [lia|lia|done|].
  intros e He Hdiv. destruct (Z_le_gt_dec p e); [done|]. exfalso. apply (Hnd e); [lia|done].
Qed.

Lemma lpf_fixed n : 2 <= n -> lpf n = n <-> Z.prime n.
Proof.
  intros Hn. split; [|apply lpf_of_prime]. intros <-. by apply lpf_prime.
Qed.

Lemma lpf_least_prime_factor n : 2 <= n -> least_prime_factor n (lpf n).
Proof.
  intros Hn. split; [by apply lpf_prime|]. split; [by apply lpf_divide|].
  intros q [Hq _] Hdiv. apply lpf_least; [done|lia|done].
Qed.

Lemma least_prime_factor_unique n p q :
  least_prime_factor n p -> least_prime_factor n q -> p = q.
Proof.
  intros (Hp & Hpn & Hpl) (Hq & Hqn & Hql).
  pose proof (Hpl q Hq Hqn). pose proof (Hql p Hp Hpn). lia.
Qed.

(** The cofactor [n / lpf n] of a composite [n] has no smaller prime factor
    than [n]. *)
Lemma lpf_cofactor n :
  2 <= n -> n = lpf n * (n / lpf n) /\ 1 <= n / lpf n /\
  (lpf n <> n -> 2 <= n / lpf n < n /\ lpf n <= lpf (n / lpf n)).
Proof.
  intros Hn. pose proof (lpf_range n Hn) as Hr.
  destruct (lpf_divide n Hn) as [c Hc].
  assert (Hq : n / lpf n = c) by (rewrite Hc at 1; apply Z.div_mul; lia).
  rewrite Hq. split; [lia|]. split; [nia|]. intros Hne.
  assert (2 <= c) by nia. split; [nia|].
  apply lpf_least; [done|by apply lpf_range|].
  etrans; [by apply lpf_divide|]. exists (lpf n). lia.
Qed.

(** The multiples the linear sieve writes: [p * k] for a prime [p] that is at
    most the least prime factor of [k]. *)
Lemma lpf_mul p k : Z.prime p -> 2 <= k -> p <= lpf k -> lpf (p * k) = p.
Proof.
  intros Hp Hk Hle. pose proof (Z.prime_ge_2 _ Hp) as Hp2.
  apply lpf_unique; [nia|done|exists k; lia|].
  intros e He Hdiv.
  assert (Hpe : Z.prime (lpf e)) by by apply lpf_prime.
  assert (Hdiv' : (lpf e | p * k)) by (etrans; [by apply lpf_divide|done]).
  pose proof (lpf_range e He).
  apply (Z.divide_prime_mul _ _ _ Hpe) in Hdiv' as [Hd|Hd].
  - apply Z.divide_prime_prime in Hd; [lia|done..].
  - pose proof (lpf_least k (lpf e) Hk ltac:(lia) Hd). lia.
Qed.

Lemma cofactor_mul p k : Z.prime p -> 2 <= k -> p <= lpf k -> p * k / lpf (p * k) = k.
Proof.
  intros Hp Hk Hle. rewrite lpf_mul by done.
  pose proof (Z.prime_ge_2 _ Hp). rewrite Z.mul_comm. apply Z.div_mul. lia.
Qed.

End lpf.

(** ** The primes of an interval *)

Section primes_between.

Implicit Types (a b k p q : Z).

Lemma primes_between_empty a b : b < a -> primes_between a b = [].
Proof. intros Hab. unfold primes_between. by rewrite seqZ_nil by lia. Qed.

Lemma primes_between_first a b :
  a <= b ->
  primes_between a b =
    if decide (lpf a = a) then a :: primes_between (a + 1) b else primes_between (a + 1) b.
Proof.
  intros Hab. unfold primes_between. rewrite seqZ_cons by lia.
  rewrite filter_cons. replace (Z.pred (b - a + 1)) with (b - (a + 1) + 1) by lia.
  replace (Z.succ a) with (a + 1) by lia. done.
Qed.

Lemma primes_between_last a b :
  a <= b ->
  primes_between a b =
    primes_between a (b - 1) ++ (if decide (lpf b = b) then [b] else []).
Proof.
  intros Hab. unfold primes_between.
  replace (b - a + 1) with ((b - 1 - a + 1) + 1) by lia.
  rewrite seqZ_app by lia. rewrite filter_app. f_equal.
  replace (a + (b - 1 - a + 1)) with b by lia.
  rewrite seqZ_cons by lia. rewrite seqZ_nil by lia.
  rewrite filter_cons, filter_nil. done.
Qed.

Lemma elem_of_primes_between a b p :
  2 <= a -> p ∈ primes_between a b <-> a <= p <= b /\ Z.prime p.
Proof.
  intros Ha. unfold primes_between. rewrite list_elem_of_filter, elem_of_seqZ.
  split.
  - intros [Hp ?]. split; [lia|]. apply lpf_fixed; [lia|done].
  - intros [? Hp]. split; [|lia]. apply lpf_fixed; [lia|done].
Qed.

Lemma primes_between_length a b : Z.of_nat (length (primes_between a b)) <= Z.max 0 (b - a + 1).
Proof.
  unfold primes_between.
  pose proof (length_filter (fun p => lpf p = p) (seqZ a (b - a + 1))) as Hlen.
  rewrite length_seqZ in Hlen. lia.
Qed.

(** The head of the list is the first prime of the interval. *)
Lemma primes_between_cons a b p rest :
  2 <= a -> primes_between a b = p :: rest ->
  a <= p <= b /\ Z.prime p /\ (forall q, a <= q < p -> ~ Z.prime q) /\
  rest = primes_between (p + 1) b.
Proof.
  intros Ha. remember (Z.to_nat (b - a + 1)) as n eqn:Hn.
  revert a Ha Hn. induction n as [|n IH]; intros a Ha Hn Heq.
  - rewrite primes_between_empty in Heq by lia. done.
  - rewrite primes_between_first in Heq by lia. case_decide as Hpa.
    + injection Heq as <- <-. split; [lia|]. split; [apply lpf_fixed; [lia|done]|].
      split; [intros q Hq; lia|done].
    + destruct (IH (a + 1)) as (Hp & Hpp & Hnp & Hrest); [lia|lia|done|].
      split; [lia|]. split; [done|]. split; [|done].
      intros q Hq Hqp. destruct (Z.eq_dec q a) as [->|]; [|apply (Hnp q); [lia|done]].
      apply Hpa. by apply lpf_of_prime.
Qed.

Lemma primes_between_nil a b q :
  2 <= a -> primes_between a b = [] -> a <= q <= b -> ~ Z.prime q.
Proof.
  intros Ha Hnil Hq Hp.
  assert (Hin : q ∈ primes_between a b) by by apply elem_of_primes_between.
  rewrite Hnil in Hin. by apply elem_of_nil in Hin.
Qed.

(** The list is strictly ascending. *)
Lemma primes_between_sorted a b : StronglySorted Z.lt (primes_between a b).
Proof.
  remember (Z.to_nat (b - a + 1)) as n eqn:Hn.
  revert a Hn. induction n as [|n IH]; intros a Hn.
  - rewrite primes_between_empty by lia. constructor.
  - rewrite primes_between_first by lia.
    assert (Hsorted : StronglySorted Z.lt (primes_between (a + 1) b)) by (apply IH; lia).
    case_decide; [|done]. constructor; [done|].
    apply Forall_forall. intros q Hq.
    unfold primes_between in Hq. apply list_elem_of_filter in Hq as [_ Hq].
    apply elem_of_seqZ in Hq. lia.
Qed.

End primes_between.

(** ** The linear sieve *)

Section euler.

Context `{vector_impl}.
Implicit Types (L k b m p : Z) (mpf ps : list Z).

Lemma entries_iff (P Q : Z -> Prop) L mpf :
  (forall m, 0 <= m <= L -> P m <-> Q m) -> entries P L mpf -> entries Q L mpf.
Proof.
  intros HPQ [Hlen Hent]. split; [done|]. intros m Hm.
  destruct (Hent m Hm) as [Hyes Hno]. split; intros HQ.
  - apply Hyes. by apply HPQ.
  - apply Hno. intros HP. apply HQ. by apply HPQ.
Qed.

(** A composite [m] with cofactor [k] is [lpf m * k], for a prime [lpf m]
    that is at most [lpf k]. *)
Lemma cofactor_inv m k :
  2 <= m -> 2 <= k -> m / lpf m = k ->
  m = lpf m * k /\ Z.prime (lpf m) /\ lpf m <= lpf k /\ lpf m <= k.
Proof.
  intros Hm Hk Hc. destruct (lpf_cofactor m Hm) as (Hmul & _ & Hcomp).
  rewrite Hc in Hmul, Hcomp.
  assert (Hne : lpf m <> m) by (intros Heq; rewrite Heq in Hmul; nia).
  destruct (Hcomp Hne) as [_ Hle]. pose proof (lpf_range k Hk).
  split; [done|]. split; [by apply lpf_prime|]. lia.
Qed.

(** When no prime below [lpf k] and below [L / k] is left to use, the
    candidate [k] is done. *)
Lemma settling_done L k b :
  2 <= k -> 2 <= b ->
  (forall q, Z.prime q -> b <= q -> q <= lpf k -> L < q * k) ->
  forall m, 0 <= m <= L -> settling k b m <-> settled (k + 1) m.
Proof.
  intros Hk Hb Hdone m Hm. unfold settling, settled. split.
  - intros [[? [?|?]]|[ -> |(? & Hc & ?)]]; [split; lia..|]. split; [done|]. right. lia.
  - intros [Hm2 [Hlt|Hc]].
    + destruct (Z.eq_dec m k); [by right; left|]. left. split; [done|]. left. lia.
    + destruct (Z.eq_dec (m / lpf m) k) as [Hck|]; [|left; split; [done|]; right; lia].
      right. right. split; [done|]. split; [done|].
      destruct (cofactor_inv m k Hm2 Hk Hck) as (Hmul & Hp & Hle & _).
      destruct (Z_lt_le_dec (lpf m) b) as [|Hbp]; [done|].
      exfalso. pose proof (Hdone (lpf m) Hp Hbp Hle). lia.
Qed.

Lemma mark_multiples_spec L k ps b mpf :
  2 <= k <= L -> L < 2 ^ 32 -> 2 <= b -> ps = primes_between b k ->
  entries (settling k b) L mpf ->
  exists mpf', EulerSieve.mark_multiples L k ps mpf = Ok mpf' /\
               entries (settled (k + 1)) L mpf'.
Proof.
  intros Hk HL. revert b mpf. induction ps as [|p ps IH]; intros b mpf Hb Hps Hent; simpl.
  - exists mpf. split; [done|]. eapply entries_iff; [|done].
    apply settling_done; [lia|done|]. intros q Hq Hbq Hqk. exfalso.
    pose proof (lpf_range k ltac:(lia)).
    apply (primes_between_nil b k q); [done|done|lia|done].
  - symmetry in Hps. apply primes_between_cons in Hps as (Hp & Hpp & Hnp & ->); [|done].
    destruct Hent as [Hlen Hent].
    assert (Hmk : mpf !! Z.to_nat k = Some (lpf k)).
    { apply (Hent k); [lia|]. right. by left. }
    rewrite (u64_small k) by lia. rewrite (vget_lookup mpf k (lpf k)); [|lia|done]. simpl.
    assert (Hstop : (forall q, Z.prime q -> p <= q -> q <= lpf k -> L < q * k) ->
      entries (settled (k + 1)) L mpf).
    { intros Hdone. eapply entries_iff; [|by split].
      apply settling_done; [lia|done|]. intros q Hq Hbq Hqk.
      apply Hdone; [done| |done]. destruct (Z_lt_le_dec q p); [|done].
      exfalso. by apply (Hnp q). }
    destruct (Z.gtb_spec p (lpf k)) as [Hgt|Hle].
    { exists mpf. split; [done|]. apply Hstop. intros q _ ? ?. lia. }
    rewrite (u64_small p) by lia. rewrite (u64_small (p * k)) by nia.
    rewrite (u64_small L) by lia.
    destruct (Z.gtb_spec (p * k) L) as [Hgt|HxL].
    { exists mpf. split; [done|]. apply Hstop. intros q _ ? ?. nia. }
    rewrite vset_in_bounds by nia. simpl.
    apply (IH (p + 1)); [lia|done|]. split; [by rewrite length_insert|].
    intros m Hm. rewrite lookup_insert_Z by nia.
    pose proof (lpf_mul p k Hpp ltac:(lia) Hle) as Hlpf.
    pose proof (cofactor_mul p k Hpp ltac:(lia) Hle) as Hcof.
    case_decide as Hmx.
    + subst m. split; [by rewrite Hlpf|]. intros Hns. exfalso. apply Hns.
      right. right. split; [nia|]. split; [done|]. lia.
    + assert (Hiff : settling k (p + 1) m <-> settling k b m).
      { unfold settling. split.
        - intros [?|[?|(Hm2 & Hc & Hlt)]]; [by left|by right; left|].
          right. right. split; [done|]. split; [done|].
          destruct (cofactor_inv m k Hm2 ltac:(lia) Hc) as (Hmul & Hlp & _).
          destruct (Z.eq_dec (lpf m) p) as [Heq|]; [exfalso; apply Hmx; rewrite Hmul, Heq; done|].
          destruct (Z_lt_le_dec (lpf m) b); [done|].
          exfalso. apply (Hnp (lpf m)); [lia|done].
        - intros [?|[?|(Hm2 & Hc & Hlt)]]; [by left|by right; left|].
          right. right. split; [done|]. split; [done|]. lia. }
      destruct (Hent m Hm) as [Hyes Hno]. split; intros Hs.
      * apply Hyes. by apply Hiff.
      * apply Hno. intros Hs'. apply Hs. by apply Hiff.
Qed.

(** Past the largest value of [T] the counter never exceeds the limit: the
    loop does not end normally. *)
Lemma sieve_loop_no_exit T fuel L num mpf primes st :
  0 <= it_digits T -> L = it_max T -> in_range T num ->
  EulerSieve.sieve_loop T fuel L num mpf primes <> Ok st.
Proof.
  intros Hd HL. revert num mpf primes.
  induction fuel as [|fuel IH]; intros num mpf primes Hnum; simpl; [done|].
  destruct (Z.leb_spec num L) as [_|Hgt]; [|unfold in_range in Hnum; lia].
  intros Hrun. inv_bind Hrun. revert Hrun. apply IH. by apply wrap_range.
Qed.

Lemma settled_self k : 2 <= k -> settled k k <-> lpf k <> k.
Proof.
  intros Hk. destruct (lpf_cofactor k Hk) as (Hmul & Hc & Hcomp). unfold settled. split.
  - intros [_ [?|Hcof]] Heq; [lia|]. rewrite Heq in Hcof.
    rewrite Z.div_same in Hcof by lia. lia.
  - intros Hne. split; [done|]. right. by apply Hcomp.
Qed.

Lemma settling_start k m : 2 <= k -> settling k 2 m <-> settled k m \/ m = k.
Proof.
  intros Hk. unfold settling. split; [|tauto].
  intros [?|[?|(Hm & _ & Hlt)]]; [tauto..|]. pose proof (lpf_range m Hm). lia.
Qed.

(** The first half of the loop body: a candidate whose entry is still 0 is
    prime, is appended to the primes and becomes its own entry. *)
Lemma record_prime_spec L k mpf :
  2 <= k <= L -> L < 2 ^ 32 -> L + 1 <= max_size -> euler_inv L k (mpf, primes_between 2 (k - 1)) ->
  exists m st,
    vget mpf (u64 k) = Ok m /\
    (if m =? 0 then
       primes_ ← push_back (primes_between 2 (k - 1)) k;
       min_prime_factor_ ← vset mpf (u64 k) k;
       Ok (min_prime_factor_, primes_)
     else Ok (mpf, primes_between 2 (k - 1))) = Ok st /\
    entries (settling k 2) L st.1 /\ st.2 = primes_between 2 k.
Proof.
  intros Hk HL Hcap [[Hlen Hent] _]. simpl in *.
  rewrite (u64_small k) by lia.
  destruct (Hent k ltac:(lia)) as [Hyes Hno].
  rewrite (primes_between_last 2 k) by lia.
  destruct (decide (lpf k = k)) as [Hprime|Hcomp].
  - exists 0. eexists. split; [apply vget_lookup; [lia|]; apply Hno; rewrite settled_self by lia; tauto|].
    simpl. unfold push_back.
    pose proof (primes_between_length 2 (k - 1)).
    destruct (Z.ltb_spec (Z.of_nat (length (primes_between 2 (k - 1)))) max_size); [|lia].
    simpl. rewrite vset_in_bounds by lia. simpl. split; [done|]. simpl. split; [|done].
    split; [by rewrite length_insert|]. intros m Hm.
    rewrite lookup_insert_Z by lia. rewrite settling_start by lia.
    destruct (Hent m Hm) as [Hyes' Hno']. case_decide as Hmk.
    + subst m. split; [by rewrite Hprime|]. tauto.
    + split; [intros [?|?]; [auto|done]|]. intros Hns. apply Hno'. tauto.
  - pose proof (lpf_range k ltac:(lia)).
    exists (lpf k). eexists. split; [apply vget_lookup; [lia|]; apply Hyes; by rewrite settled_self by lia|].
    destruct (Z.eqb_spec (lpf k) 0); [lia|]. split; [done|]. simpl.
    split; [|by rewrite app_nil_r]. split; [done|]. intros m Hm.
    rewrite settling_start by lia.
    destruct (Hent m Hm) as [Hyes' Hno']. split.
    + intros [?| ->]; [auto|]. apply Hyes. by rewrite settled_self by lia.
    + intros Hns. apply Hno'. tauto.
Qed.

Lemma euler_loop_spec T fuel L k st :
  in_range T L -> L < 2 ^ 32 -> L + 1 <= max_size -> 2 <= k <= L + 1 ->
  euler_inv L k st ->
  match EulerSieve.sieve_loop T fuel L k st.1 st.2 with
  | Ok st' => euler_inv L (L + 1) st'
  | OutOfFuel => (fuel <= Z.to_nat (L + 1 - k))%nat \/ L = it_max T
  | _ => L = it_max T
  end.
Proof.
  intros HT HL Hcap. revert k st.
  induction fuel as [|fuel IH]; intros k [mpf primes] Hk Hinv; simpl; [left; lia|].
  destruct (Z.leb_spec k L) as [HkL|HkL].
  - pose proof Hinv as [_ Hprimes]. simpl in Hprimes. subst primes.
    destruct (record_prime_spec L k mpf ltac:(lia) HL Hcap Hinv)
      as (m & [mpf1 primes1] & -> & Hst & Hent1 & Hprimes1).
    simpl in Hent1, Hprimes1. subst primes1. simpl. rewrite Hst. simpl.
    destruct (mark_multiples_spec L k (primes_between 2 k) 2 mpf1 ltac:(lia) HL ltac:(lia) eq_refl Hent1)
      as (mpf2 & -> & Hent2). simpl.
    destruct (Z_le_gt_dec (k + 1) (it_max T)) as [Hfit|Hwrap].
    + rewrite wrap_in_range by (pose proof (it_min_nonpos T); unfold in_range; lia).
      specialize (IH (k + 1) (mpf2, primes_between 2 k) ltac:(lia)). simpl in IH.
      assert (Hinv' : euler_inv L (k + 1) (mpf2, primes_between 2 k)).
      { split; [done|]. simpl. by replace (k + 1 - 1) with k by lia. }
      specialize (IH Hinv').
      destruct (EulerSieve.sieve_loop T fuel L (k + 1) mpf2 (primes_between 2 k)); [done| | |];
        destruct IH; auto; left; lia.
    + assert (HLmax : L = it_max T) by (unfold in_range in HT; lia).
      pose proof (sieve_loop_no_exit T fuel L (wrap T (k + 1)) mpf2 (primes_between 2 k)) as Hno.
      destruct (EulerSieve.sieve_loop T fuel L (wrap T (k + 1)) mpf2 (primes_between 2 k)) as [st'| | |];
        [|auto..].
      exfalso. apply (Hno st'); [by eapply in_range_digits|done| |done].
      apply wrap_range. by eapply in_range_digits.
  - by replace (L + 1) with k by lia.
Qed.

End euler.

(** ** The constructor and the query of [Sieve] *)

Section sieve_object.

Context `{vector_impl}.

(** The flags after the two initial writes. *)
Lemma sieve_inv_init L :
  1 <= L ->
  sieve_inv L 2 (<[Z.to_nat 1 := false]> (<[Z.to_nat 0 := false]> (replicate (Z.to_nat (L + 1)) true))).
Proof.
  intros HL. split; [rewrite !length_insert, length_replicate; lia|].
  intros m Hm. rewrite !lookup_insert_Z by (rewrite ?length_insert, ?length_replicate; lia).
  unfold struck. repeat case_decide; [split; [intros _; left; lia|done]..|].
  rewrite lookup_replicate_2 by lia. split; [done|]. intros [?|(d & ? & _)]; lia.
Qed.

Lemma vector_new_Ok {A} n (x : A) v :
  vector_new n x = Ok v -> n <= max_size /\ v = replicate (Z.to_nat n) x.
Proof.
  unfold vector_new. destruct (Z.leb_spec n max_size); [|done]. by intros [= <-].
Qed.

Lemma vector_new_fits {A} n (x : A) :
  n <= max_size -> vector_new n x = Ok (replicate (Z.to_nat n) x).
Proof. intros Hn. unfold vector_new. by destruct (Z.leb_spec n max_size); [|lia]. Qed.

(** What a successful construction establishes. *)
Lemma Sieve_Ok fuel L s :
  Sieve.Sieve fuel L = Ok s -> L < 2 ^ 63 ->
  Sieve.num_limit_ s = L /\ 1 <= L /\ L + 1 <= max_size /\ sieve_done L (Sieve.is_prime_ s).
Proof.
  unfold Sieve.Sieve. intros Hrun HL. inv_bind Hrun.
  injection Hrun as <-. simpl.
  apply numeric_cast_Ok in Hstep as [-> HL0%in_range_u64].
  rewrite u64_small in Hstep0 by lia.
  apply vector_new_Ok in Hstep0 as [Hcap ->].
  apply vset_Ok in Hstep1 as [_ ->].
  apply vset_Ok in Hstep2 as [Hlen ->].
  rewrite length_insert, length_replicate in Hlen.
  apply numeric_cast_Ok in Hstep3 as [-> _].
  pose proof (sieve_loop_spec fuel fuel L 2 _ ltac:(lia) ltac:(lia) ltac:(lia)
                (sieve_inv_init L ltac:(lia))) as Hloop.
  rewrite Hstep4 in Hloop. split; [done|]. split; [lia|]. split; [lia|done].
Qed.

(** Every limit from 1 on whose flags fit a vector gives a sieve. *)
Lemma Sieve_constructs fuel L :
  1 <= L < 2 ^ 63 -> L + 1 <= max_size -> (Z.to_nat (L + 1) < fuel)%nat ->
  exists s, Sieve.Sieve fuel L = Ok s.
Proof.
  intros HL Hcap Hfuel. unfold Sieve.Sieve.
  rewrite (numeric_cast_in_range size_t L), (numeric_cast_in_range uint64_t L)
    by (apply in_range_u64; lia). simpl.
  rewrite u64_small by lia. rewrite vector_new_fits by done. simpl.
  rewrite vset_in_bounds by (rewrite length_replicate; lia). simpl.
  rewrite vset_in_bounds by (rewrite length_insert, length_replicate; lia). simpl.
  pose proof (sieve_loop_spec fuel fuel L 2 _ ltac:(lia) ltac:(lia) ltac:(lia)
                (sieve_inv_init L ltac:(lia))) as Hloop.
  destruct (Sieve.sieve_loop fuel fuel L 2 _) as [v| | |]; [|done..|lia].
  simpl. by eexists.
Qed.

(** The flag of a number in range tells whether it is prime. *)
Lemma sieve_done_lookup L v n :
  sieve_done L v -> 0 <= n <= L ->
  exists b, v !! Z.to_nat n = Some b /\ (b = true <-> 2 <= n /\ ~ small_divisor n).
Proof.
  intros [Hlen Hflags] Hn.
  destruct (lookup_lt_is_Some_2 v (Z.to_nat n)) as [b Hb]; [lia|].
  exists b. split; [done|]. specialize (Hflags n Hn). rewrite Hb in Hflags.
  destruct b.
  - split; [intros _|done]. split.
    + destruct (Z_lt_le_dec n 2); [|done]. assert (Some true = Some false) by (apply Hflags; by left). done.
    + intros Hsd. assert (Some true = Some false) by (apply Hflags; by right). done.
  - split; [done|]. intros [Hn2 Hsd]. exfalso.
    destruct (proj1 Hflags eq_refl) as [?|?]; [lia|done].
Qed.

End sieve_object.

(** C3.  On a successfully constructed [Sieve (L)] (with vectors of at most
    [PTRDIFF_MAX] elements), [is_prime (n)] returns false for [n < 0], raises
    [OutOfRange] for [n > L], returns false for 0 and 1, and for
    [2 <= n <= L] returns true exactly when [n] has no divisor [i] with
    [2 <= i] and [i * i <= n], that is, exactly when [n] is prime.  The query
    is a function of the sieve and [n] alone and yields no new sieve. *)
Theorem Sieve_is_prime_spec `{vector_impl} (fuel : nat) (L : Z) (s : Sieve.t) (n : Z) :
  max_size <= 2 ^ 63 - 1 ->
  Sieve.Sieve fuel L = Ok s ->
  (n < 0 -> Sieve.is_prime s n = Ok false) /\
  (L < n -> Sieve.is_prime s n = Throw OutOfRange) /\
  (0 <= n <= 1 -> n <= L -> Sieve.is_prime s n = Ok false) /\
  (2 <= n <= L ->
     exists b, Sieve.is_prime s n = Ok b /\
       (b = true <-> ~ small_divisor n) /\ (b = true <-> Z.prime n)).
Proof.
  intros Hmax Hrun.
  assert (HL63 : L < 2 ^ 63).
  { unfold Sieve.Sieve in Hrun. inv_bind Hrun.
    apply numeric_cast_Ok in Hstep as [-> HL0%in_range_u64].
    apply vector_new_Ok in Hstep0 as [Hcap ->].
    apply vset_Ok in Hstep1 as [_ ->]. apply vset_Ok in Hstep2 as [Hlen _].
    rewrite length_insert, length_replicate in Hlen.
    destruct (Z.eq_dec L (2 ^ 64 - 1)) as [->|]; [change (u64 (2 ^ 64 - 1 + 1)) with 0 in Hlen; lia|].
    rewrite u64_small in Hcap by lia. lia. }
  destruct (Sieve_Ok fuel L s Hrun HL63) as (Hlim & HL & _ & Hdone).
  assert (Hquery : forall n, 0 <= n <= L ->
    exists b, Sieve.is_prime s n = Ok b /\ (b = true <-> 2 <= n /\ ~ small_divisor n)).
  { intros n' Hn'. destruct (sieve_done_lookup L _ n' Hdone Hn') as (b & Hb & Hspec).
    exists b. split; [|done]. unfold Sieve.is_prime. rewrite Hlim.
    destruct (Z.ltb_spec n' 0); [lia|]. destruct (Z.gtb_spec n' L); [lia|].
    rewrite u64_small by lia. apply vget_lookup; [lia|done]. }
  split; [|split; [|split]].
  - intros Hn. unfold Sieve.is_prime. by destruct (Z.ltb_spec n 0); [|lia].
  - intros Hn. unfold Sieve.is_prime. rewrite Hlim.
    destruct (Z.ltb_spec n 0); [lia|]. by destruct (Z.gtb_spec n L); [|lia].
  - intros Hn HnL. destruct (Hquery n ltac:(lia)) as (b & -> & Hb).
    destruct b; [|done]. destruct (proj1 Hb eq_refl). lia.
  - intros Hn. destruct (Hquery n ltac:(lia)) as (b & -> & Hb).
    exists b. split; [done|]. rewrite prime_iff_no_small_divisor by lia.
    split; (split; [intros Hbt; by apply Hb|intros Hns; apply Hb; split; [lia|done]]).
Qed.

Lemma Sieve_is_prime_spec_witness :
  exists s, @Sieve.Sieve lp64 64 30 = Ok s /\
    (29 < 0 -> Sieve.is_prime s 29 = Ok false) /\
    (30 < 29 -> Sieve.is_prime s 29 = Throw OutOfRange) /\
    (0 <= 29 <= 1 -> 29 <= 30 -> Sieve.is_prime s 29 = Ok false) /\
    (2 <= 29 <= 30 ->
       exists b, Sieve.is_prime s 29 = Ok b /\
         (b = true <-> ~ small_divisor 29) /\ (b = true <-> Z.prime 29)).
Proof.
  eexists. split; [vm_compute; reflexivity|].
  apply (Sieve_is_prime_spec (H := lp64) 64 30 _ 29).
  - simpl. lia.
  - vm_compute. reflexivity.
Defined.

(** C8.  [Sieve (0)] allocates a single flag and then clears the flag at
    index 1: the write is out of bounds, whatever the loop budget. *)
Theorem Sieve_zero_out_of_bounds (fuel : nat) : @Sieve.Sieve lp64 fuel 0 = UB.
Proof. reflexivity. Qed.

(** ** The constructor and the queries of [EulerSieve] *)

Section euler_object.

Context `{vector_impl}.
Implicit Types (T : int_type) (L n : Z) (s : EulerSieve.t).

Lemma bit_width_le L w : 0 <= L -> 0 <= w -> bit_width L <= w <-> L < 2 ^ w.
Proof.
  intros HL Hw. unfold bit_width. destruct (Z.eqb_spec L 0) as [->|Hne].
  - pose proof (Z.pow_pos_nonneg 2 w). lia.
  - rewrite (Z.log2_lt_pow2 L w) by lia. lia.
Qed.

Lemma bit_width_range L : 0 <= L < 2 ^ 64 -> 0 <= bit_width L <= 64.
Proof.
  intros HL. split; [|apply bit_width_le; lia].
  unfold bit_width. destruct (Z.eqb_spec L 0); [done|]. pose proof (Z.log2_nonneg L). lia.
Qed.

Lemma make_unsigned_small T L : in_range T L -> 0 <= L -> wrap (make_unsigned T) L = L.
Proof.
  intros HT HL. apply wrap_in_range. pose proof (in_range_digits T L HT) as Hd.
  revert HT. unfold in_range, it_min, it_max, make_unsigned, it_width; simpl.
  intros HT. split; [done|].
  assert (2 ^ it_digits T <= 2 ^ (it_digits T + (if it_signed T then 1 else 0))); [|lia].
  apply Z.pow_le_mono_r; [lia|]. destruct (it_signed T); lia.
Qed.

(** The guard of the constructor lets exactly the limits below [2 ^ 32]
    through. *)
Lemma check_overflow_spec T L :
  in_range T L -> 0 <= L < 2 ^ 64 ->
  EulerSieve.check_overflow T L =
    if 2 ^ 32 <=? L then Throw OverflowError else Ok ().
Proof.
  intros HT HL. unfold EulerSieve.check_overflow.
  rewrite make_unsigned_small by (done || lia).
  pose proof (bit_width_range L HL) as Hw. rewrite u64_small by lia.
  pose proof (bit_width_le L 32 ltac:(lia) ltac:(lia)) as H32.
  change (it_digits uint64_t) with 64.
  destruct (Z.leb_spec (2 ^ 32) L); destruct (Z.gtb_spec (bit_width L * 2) 64); (done || lia).
Qed.

Lemma euler_inv_init L :
  0 <= L -> euler_inv L 2 (replicate (Z.to_nat (L + 1)) 0, []).
Proof.
  intros HL. split; simpl; [|by rewrite primes_between_empty by lia].
  split; [rewrite length_replicate; lia|]. intros m Hm.
  rewrite lookup_replicate_2 by lia. split; [|done].
  intros [? [?|?]]; lia.
Qed.

Lemma euler_inv_built L st :
  0 <= L < 2 ^ 32 -> euler_inv L (L + 1) st ->
  euler_built L {| EulerSieve.num_limit_ := L; EulerSieve.min_prime_factor_ := st.1;
                   EulerSieve.primes_ := st.2 |}.
Proof.
  intros HL [[Hlen Hent] Hprimes]. split; [done|]. split; [done|]. simpl.
  split; [done|]. split; [|by replace (L + 1 - 1) with L in Hprimes by lia].
  intros m Hm. apply (Hent m); [lia|]. split; [lia|]. left. lia.
Qed.

(** What a successful construction establishes. *)
Lemma EulerSieve_Ok T fuel L s :
  in_range T L -> EulerSieve.EulerSieve T fuel L = Ok s -> euler_built L s.
Proof.
  unfold EulerSieve.EulerSieve. intros HT Hrun. inv_bind Hrun. injection Hrun as <-.
  apply numeric_cast_Ok in Hstep as [-> HL%in_range_u64].
  rewrite check_overflow_spec in Hstep1 by done.
  destruct (Z.leb_spec (2 ^ 32) L) as [|HL32]; [done|]. clear Hstep1.
  rewrite u64_small in Hstep0 by lia.
  apply vector_new_Ok in Hstep0 as [Hcap ->].
  destruct (Z_le_gt_dec 1 L) as [HL1|HL0].
  - pose proof (euler_loop_spec T fuel L 2 _ HT HL32 Hcap ltac:(lia) (euler_inv_init L ltac:(lia)))
      as Hloop. simpl in Hloop. rewrite Hstep2 in Hloop.
    apply euler_inv_built; [lia|done].
  - assert (L = 0) as -> by lia. destruct fuel as [|fuel]; [done|].
    simpl in Hstep2. injection Hstep2 as <-.
    split; [done|]. split; [lia|]. split; [done|]. split; [intros m Hm; lia|done].
Qed.

(** Every limit below [2 ^ 32] and below the largest value of [T] gives a
    sieve, if its entries fit a vector. *)
Lemma EulerSieve_constructs T fuel L :
  in_range T L -> 0 <= L < 2 ^ 32 -> L < it_max T -> L + 1 <= max_size ->
  (Z.to_nat L < fuel)%nat ->
  exists s, EulerSieve.EulerSieve T fuel L = Ok s.
Proof.
  intros HT HL Hmax Hcap Hfuel. unfold EulerSieve.EulerSieve.
  rewrite numeric_cast_in_range by (apply in_range_u64; lia). simpl.
  rewrite u64_small by lia. rewrite vector_new_fits by done. simpl.
  rewrite check_overflow_spec by (done || lia).
  destruct (Z.leb_spec (2 ^ 32) L); [lia|]. simpl.
  destruct (Z_le_gt_dec 1 L) as [HL1|HL0].
  - pose proof (euler_loop_spec T fuel L 2 _ HT ltac:(lia) Hcap ltac:(lia)
                  (euler_inv_init L ltac:(lia))) as Hloop. simpl in Hloop.
    destruct (EulerSieve.sieve_loop T fuel L 2 _ _) as [st| | |]; [|lia..].
    simpl. by eexists.
  - assert (L = 0) as -> by lia. destruct fuel as [|fuel]; [lia|]. simpl. by eexists.
Qed.

(** At the largest value of [T] the counter of the loop cannot pass the
    limit: the constructor gives no sieve. *)
Lemma EulerSieve_at_max T fuel L s :
  in_range T L -> L = it_max T -> 2 <= L -> EulerSieve.EulerSieve T fuel L <> Ok s.
Proof.
  intros HT Hmax HL Hrun. unfold EulerSieve.EulerSieve in Hrun. inv_bind Hrun.
  revert Hstep2. apply sieve_loop_no_exit; [by eapply in_range_digits|done|].
  by apply (in_range_nonneg T L).
Qed.

(** [unsigned_abs] is the absolute value on the values of [T]. *)
Lemma unsigned_abs_small T n : in_range T n -> unsigned_abs T n = Z.abs n.
Proof.
  intros HT. unfold unsigned_abs. apply wrap_in_range.
  pose proof (in_range_digits T n HT) as Hd. revert HT.
  unfold in_range, it_min, it_max, make_unsigned, it_width; simpl.
  assert (0 < 2 ^ it_digits T) by by apply Z.pow_pos_nonneg.
  destruct (it_signed T); intros HT.
  - rewrite Z.pow_add_r by lia. lia.
  - rewrite Z.add_0_r. lia.
Qed.

(** The three cases of [min_prime_factor] on a constructed sieve. *)
Lemma min_prime_factor_cases T L s n :
  in_range T L -> in_range T n -> euler_built L s ->
  EulerSieve.min_prime_factor T s n =
    if Z.abs n <=? 1 then Throw DomainError
    else if Z.abs n >? L then Throw OutOfRange
    else Ok (lpf (Z.abs n)).
Proof.
  intros HL Hn (Hlim & HL32 & Hlen & Hent & _). unfold EulerSieve.min_prime_factor.
  rewrite unsigned_abs_small by done. rewrite Hlim.
  rewrite make_unsigned_small by (done || lia).
  destruct (Z.leb_spec (Z.abs n) 1); [done|].
  destruct (Z.gtb_spec (Z.abs n) L); [done|].
  rewrite u64_small by lia. apply vget_lookup; [lia|]. apply Hent. lia.
Qed.

End euler_object.

(** ** The exceptions of the [EulerSieve] constructor *)

Section euler_errors.

Context `{vector_impl}.

Lemma bind_Throw {A B} (m : outcome A) (k : A -> outcome B) e :
  m ≫= k = Throw e -> m = Throw e \/ exists a, m = Ok a /\ k a = Throw e.
Proof. destruct m; simpl; [|intros [= ->]; by left|done..]. intros. right. by eexists. Qed.

Lemma vget_no_throw {A} (v : list A) i e : vget v i <> Throw e.
Proof. unfold vget. destruct (_ && _); [|done]. by destruct (v !! Z.to_nat i). Qed.

Lemma vset_no_throw {A} (v : list A) i x e : vset v i x <> Throw e.
Proof. unfold vset. by destruct (_ && _). Qed.

Lemma push_back_throw {A} (v : list A) x e : push_back v x = Throw e -> e = LengthError.
Proof. unfold push_back. destruct (_ <? _); [done|]. by intros [= <-]. Qed.

Lemma mark_multiples_no_throw L num primes mpf e :
  EulerSieve.mark_multiples L num primes mpf <> Throw e.
Proof.
  revert mpf. induction primes as [|p primes IH]; intros mpf; simpl; [done|].
  intros [Hget|(m & _ & Hrest)]%bind_Throw; [by apply vget_no_throw in Hget|].
  destruct (p >? m); [done|]. destruct (_ >? _); [done|].
  apply bind_Throw in Hrest as [Hset|(mpf' & _ & Hrest)]; [by apply vset_no_throw in Hset|].
  by apply IH in Hrest.
Qed.

(** The loop raises nothing but the [std::length_error] of [push_back]. *)
Lemma sieve_loop_throw T fuel L num mpf primes e :
  EulerSieve.sieve_loop T fuel L num mpf primes = Throw e -> e = LengthError.
Proof.
  revert num mpf primes. induction fuel as [|fuel IH]; intros num mpf primes; simpl; [done|].
  destruct (num <=? L); [|done].
  intros [Hget|(m & _ & Hrest)]%bind_Throw; [by apply vget_no_throw in Hget|].
  apply bind_Throw in Hrest as [Hrec|(st & _ & Hrest)].
  - destruct (m =? 0); [|done].
    apply bind_Throw in Hrec as [Hpush|(primes' & _ & Hrec)]; [by apply push_back_throw in Hpush|].
    apply bind_Throw in Hrec as [Hset|(mpf' & _ & Hrec)]; [by apply vset_no_throw in Hset|done].
  - apply bind_Throw in Hrest as [Hmark|(mpf' & _ & Hrest)];
      [by apply mark_multiples_no_throw in Hmark|by apply IH in Hrest].
Qed.

(** The constructor fails, in this order: in the conversion of the limit
    to [size_t], in the allocation of the entries, in the overflow guard. *)
Lemma EulerSieve_failures T fuel L :
  in_range T L ->
  EulerSieve.EulerSieve T fuel L =
    if negb (in_rangeb size_t L) then Throw CastError
    else if negb (u64 (L + 1) <=? max_size) then Throw LengthError
    else if 2 ^ 32 <=? L then Throw OverflowError
    else st ← EulerSieve.sieve_loop T fuel L 2 (replicate (Z.to_nat (u64 (L + 1))) 0) [];
         Ok {| EulerSieve.num_limit_ := L; EulerSieve.min_prime_factor_ := st.1;
               EulerSieve.primes_ := st.2 |}.
Proof.
  intros HT. unfold EulerSieve.EulerSieve, numeric_cast.
  destruct (in_rangeb size_t L) eqn:HL; [|done]. simpl.
  apply in_rangeb_spec, in_range_u64 in HL.
  unfold vector_new. destruct (u64 (L + 1) <=? max_size); [|done]. simpl.
  rewrite check_overflow_spec by done. by destruct (2 ^ 32 <=? L).
Qed.

End euler_errors.

(** C1.  In a successfully constructed [EulerSieve (L)], the stored entry of
    every [n] with [2 <= n <= L], which is what [min_prime_factor (n)]
    returns, is the least prime dividing [n]: it is prime, it divides [n],
    and no smaller prime divides [n]. *)
Theorem EulerSieve_least_prime_factor `{vector_impl} (T : int_type) (fuel : nat)
    (L : Z) (s : EulerSieve.t) (n : Z) :
  in_range T L -> EulerSieve.EulerSieve T fuel L = Ok s -> 2 <= n <= L ->
  exists p, EulerSieve.min_prime_factor_ s !! Z.to_nat n = Some p /\
    EulerSieve.min_prime_factor T s n = Ok p /\
    Z.prime p /\ (p | n) /\ (forall q, Z.prime q -> (q | n) -> p <= q).
Proof.
  intros HT Hrun Hn. pose proof (EulerSieve_Ok T fuel L s HT Hrun) as Hbuilt.
  exists (lpf n). split; [by apply Hbuilt|]. split.
  - rewrite (min_prime_factor_cases T L) by (done || (pose proof (it_min_nonpos T);
      unfold in_range in *; lia)).
    rewrite Z.abs_eq by lia.
    destruct (Z.leb_spec n 1); [lia|]. by destruct (Z.gtb_spec n L); [lia|].
  - apply lpf_least_prime_factor. lia.
Qed.

Lemma EulerSieve_least_prime_factor_witness :
  exists s, @EulerSieve.EulerSieve lp64 int32_t 64 30 = Ok s /\
  exists p, EulerSieve.min_prime_factor_ s !! Z.to_nat 21 = Some p /\
    EulerSieve.min_prime_factor int32_t s 21 = Ok p /\
    Z.prime p /\ (p | 21) /\ (forall q, Z.prime q -> (q | 21) -> p <= q).
Proof.
  eexists. split; [vm_compute; reflexivity|].
  apply (EulerSieve_least_prime_factor (H := lp64) int32_t 64 30 _ 21).
  - unfold in_range, it_min, it_max. simpl. lia.
  - vm_compute. reflexivity.
  - lia.
Defined.

(** C4, as the code has it.  The member initialisers run before the body
    of the constructor: the limit is converted to [size_t], and the vector
    of [L + 1] zeroed entries is built, the size being computed in [size_t]
    (so it is 0 at [L = 2 ^ 64 - 1]); only then does the body run the
    guard.  So for a limit [0 <= L < 2 ^ 64] the constructor raises
    [OverflowError] exactly when that vector can be built, its size being
    at most [max_size ()], and the doubled bit width of [L] exceeds 64,
    which is [L >= 2 ^ 32]; when the vector cannot be built the
    construction fails before the guard, with [std::length_error]; the
    guard raises with a loop budget of 0, that is, before the first turn
    of the sieve loop.  A limit that the conversion refuses fails with the
    exception of the conversion.  For every limit of [T], negative ones
    included, whose doubled bit width exceeds 64 no sieve results, and
    every sieve that does result is completely built. *)
Theorem EulerSieve_overflow_guard `{vector_impl} (T : int_type) (fuel : nat) (L : Z) :
  in_range T L ->
  (0 <= L < 2 ^ 64 ->
     (EulerSieve.EulerSieve T fuel L = Throw OverflowError <->
        u64 (L + 1) <= max_size /\ 64 < 2 * bit_width (wrap (make_unsigned T) L)) /\
     (64 < 2 * bit_width (wrap (make_unsigned T) L) <-> 2 ^ 32 <= L) /\
     (max_size < u64 (L + 1) -> EulerSieve.EulerSieve T fuel L = Throw LengthError) /\
     (u64 (L + 1) <= max_size -> 2 ^ 32 <= L ->
        EulerSieve.EulerSieve T 0 L = Throw OverflowError)) /\
  (forall e, numeric_cast size_t L = Throw e -> EulerSieve.EulerSieve T fuel L = Throw e) /\
  (64 < 2 * bit_width (wrap (make_unsigned T) L) ->
     forall s, EulerSieve.EulerSieve T fuel L <> Ok s) /\
  (forall s, EulerSieve.EulerSieve T fuel L = Ok s -> euler_built L s).
Proof.
  intros HT.
  assert (Hwidth : 0 <= L < 2 ^ 64 ->
    64 < 2 * bit_width (wrap (make_unsigned T) L) <-> 2 ^ 32 <= L).
  { intros HL. rewrite make_unsigned_small by (done || lia).
    pose proof (bit_width_le L 32 ltac:(lia) ltac:(lia)). lia. }
  split; [|split; [|split]].
  - intros HL. split; [|split; [by apply Hwidth|split]].
    + rewrite (EulerSieve_failures T fuel L HT).
      assert (Hin : in_rangeb size_t L = true) by by apply in_rangeb_spec, in_range_u64.
      rewrite Hin. simpl.
      destruct (Z.leb_spec (u64 (L + 1)) max_size) as [Hcap|Hcap]; simpl;
        [|split; [done|lia]].
      destruct (Z.leb_spec (2 ^ 32) L) as [HL32|HL32].
      * split; [intros _|done]. split; [done|]. by apply Hwidth.
      * split; [|intros [_ Hw]; apply Hwidth in Hw; lia].
        intros Hloop. exfalso.
        apply bind_Throw in Hloop as [Hloop|(st & _ & ?)]; [|done].
        apply sieve_loop_throw in Hloop. done.
    + intros Hcap. rewrite (EulerSieve_failures T fuel L HT).
      assert (Hin : in_rangeb size_t L = true) by by apply in_rangeb_spec, in_range_u64.
      rewrite Hin. simpl. by destruct (Z.leb_spec (u64 (L + 1)) max_size); [lia|].
    + intros Hcap HL32. rewrite (EulerSieve_failures T 0 L HT).
      assert (Hin : in_rangeb size_t L = true) by by apply in_rangeb_spec, in_range_u64.
      rewrite Hin. simpl. destruct (Z.leb_spec (u64 (L + 1)) max_size); [simpl|lia].
      by destruct (Z.leb_spec (2 ^ 32) L); [|lia].
  - intros e Hcast. unfold EulerSieve.EulerSieve. by rewrite Hcast.
  - intros Hw s Hrun. destruct (EulerSieve_Ok T fuel L s HT Hrun) as (_ & HL & _).
    apply Hwidth in Hw; lia.
  - intros s Hrun. by apply (EulerSieve_Ok T fuel L).
Qed.

Lemma EulerSieve_overflow_guard_witness :
  (0 <= 2 ^ 32 < 2 ^ 64 ->
     (@EulerSieve.EulerSieve lp64 int64_t 64 (2 ^ 32) = Throw OverflowError <->
        u64 (2 ^ 32 + 1) <= @max_size lp64 /\
        64 < 2 * bit_width (wrap (make_unsigned int64_t) (2 ^ 32))) /\
     (64 < 2 * bit_width (wrap (make_unsigned int64_t) (2 ^ 32)) <-> 2 ^ 32 <= 2 ^ 32) /\
     (@max_size lp64 < u64 (2 ^ 32 + 1) ->
        @EulerSieve.EulerSieve lp64 int64_t 64 (2 ^ 32) = Throw LengthError) /\
     (u64 (2 ^ 32 + 1) <= @max_size lp64 -> 2 ^ 32 <= 2 ^ 32 ->
        @EulerSieve.EulerSieve lp64 int64_t 0 (2 ^ 32) = Throw OverflowError)) /\
  (forall e, numeric_cast size_t (2 ^ 32) = Throw e ->
     @EulerSieve.EulerSieve lp64 int64_t 64 (2 ^ 32) = Throw e) /\
  (64 < 2 * bit_width (wrap (make_unsigned int64_t) (2 ^ 32)) ->
     forall s, @EulerSieve.EulerSieve lp64 int64_t 64 (2 ^ 32) <> Ok s) /\
  (forall s, @EulerSieve.EulerSieve lp64 int64_t 64 (2 ^ 32) = Ok s ->
     euler_built (2 ^ 32) s).
Proof.
  apply (EulerSieve_overflow_guard (H := lp64) int64_t 64 (2 ^ 32)).
  unfold in_range, it_min, it_max. simpl. lia.
Defined.

(** At the largest limit of [uint64_t] the size [L + 1] wraps to 0: the
    empty vector is built and the guard raises. *)
Lemma EulerSieve_uint64_max fuel :
  @EulerSieve.EulerSieve lp64 uint64_t fuel (2 ^ 64 - 1) = Throw OverflowError.
Proof.
  rewrite (EulerSieve_failures (H := lp64) uint64_t fuel (2 ^ 64 - 1)); [done|].
  unfold in_range, it_min, it_max. simpl. lia.
Qed.

(** C4, as the specification has it, fails: [EulerSieve<int64_t>] at the
    limit [INT64_MAX], whose doubled bit width is 126, does not raise
    [OverflowError]; the allocation of its [2 ^ 63] entries fails first. *)
Lemma EulerSieve_overflow_guard_counterexample :
  ~ overflow_guard_claim (H := lp64) int64_t 64 (2 ^ 63 - 1).
Proof.
  unfold overflow_guard_claim. intros [_ Hclaim].
  assert (Hthrow : @EulerSieve.EulerSieve lp64 int64_t 64 (2 ^ 63 - 1) = Throw LengthError)
    by (vm_compute; reflexivity).
  rewrite Hthrow in Hclaim. discriminate Hclaim. vm_compute. reflexivity.
Qed.

(** C5.  On a constructed sieve, for every [n] of the (signed or unsigned)
    type [T]: [min_prime_factor (n)] works on the absolute value of [n],
    which [unsigned_abs] gives also for the least value of [T]; it raises
    [DomainError] exactly when [|n| <= 1], raises [OutOfRange] exactly when
    [|n| >= 2] and [|n| > L], and otherwise returns the stored entry of
    [|n|], the same as for [|n|] itself. *)
Theorem min_prime_factor_errors `{vector_impl} (T : int_type) (fuel : nat)
    (L : Z) (s : EulerSieve.t) (n : Z) :
  in_range T L -> in_range T n -> EulerSieve.EulerSieve T fuel L = Ok s ->
  unsigned_abs T n = Z.abs n /\
  (EulerSieve.min_prime_factor T s n = Throw DomainError <-> Z.abs n <= 1) /\
  (EulerSieve.min_prime_factor T s n = Throw OutOfRange <-> 2 <= Z.abs n /\ L < Z.abs n) /\
  (2 <= Z.abs n <= L ->
     exists p, EulerSieve.min_prime_factor_ s !! Z.to_nat (Z.abs n) = Some p /\
       EulerSieve.min_prime_factor T s n = Ok p /\
       EulerSieve.min_prime_factor T s (Z.abs n) = Ok p).
Proof.
  intros HT Hn Hrun. pose proof (EulerSieve_Ok T fuel L s HT Hrun) as Hbuilt.
  split; [by apply unsigned_abs_small|].
  rewrite (min_prime_factor_cases T L s n) by done.
  destruct (Z.leb_spec (Z.abs n) 1) as [Hdom|Hdom].
  { split; [done|]. split; [split; [intros [=]|lia]|lia]. }
  destruct (Z.gtb_spec (Z.abs n) L) as [Hout|Hin].
  { split; [split; [intros [=]|lia]|]. split; [split; [lia|done]|lia]. }
  split; [split; [intros [=]|lia]|]. split; [split; [intros [=]|lia]|].
  intros _. exists (lpf (Z.abs n)). split; [apply Hbuilt; lia|]. split; [done|].
  rewrite (min_prime_factor_cases T L s (Z.abs n));
    [|done|pose proof (it_min_nonpos T); unfold in_range in *; lia|done].
  rewrite Z.abs_idemp.
  destruct (Z.leb_spec (Z.abs n) 1); [lia|]. by destruct (Z.gtb_spec (Z.abs n) L); [lia|].
Qed.

Lemma min_prime_factor_errors_witness :
  exists s, @EulerSieve.EulerSieve lp64 int8_t 64 30 = Ok s /\
  unsigned_abs int8_t (-21) = Z.abs (-21) /\
  (EulerSieve.min_prime_factor int8_t s (-21) = Throw DomainError <-> Z.abs (-21) <= 1) /\
  (EulerSieve.min_prime_factor int8_t s (-21) = Throw OutOfRange <->
     2 <= Z.abs (-21) /\ 30 < Z.abs (-21)) /\
  (2 <= Z.abs (-21) <= 30 ->
     exists p, EulerSieve.min_prime_factor_ s !! Z.to_nat (Z.abs (-21)) = Some p /\
       EulerSieve.min_prime_factor int8_t s (-21) = Ok p /\
       EulerSieve.min_prime_factor int8_t s (Z.abs (-21)) = Ok p).
Proof.
  eexists. split; [vm_compute; reflexivity|].
  apply (min_prime_factor_errors (H := lp64) int8_t 64 30 _ (-21)).
  - unfold in_range, it_min, it_max. simpl. lia.
  - unfold in_range, it_min, it_max. simpl. lia.
  - vm_compute. reflexivity.
Defined.

(** C6.  The list [primes ()] of a constructed sieve is strictly ascending
    and holds exactly the primes up to [L], which are exactly the [n <= L]
    of type [T] with [min_prime_factor (n) = n]. *)
Theorem EulerSieve_primes_spec `{vector_impl} (T : int_type) (fuel : nat)
    (L : Z) (s : EulerSieve.t) :
  in_range T L -> EulerSieve.EulerSieve T fuel L = Ok s ->
  StronglySorted Z.lt (EulerSieve.primes s) /\
  forall n,
    (n ∈ EulerSieve.primes s <-> n <= L /\ Z.prime n) /\
    (in_range T n ->
       n ∈ EulerSieve.primes s <-> n <= L /\ EulerSieve.min_prime_factor T s n = Ok n).
Proof.
  intros HT Hrun. pose proof (EulerSieve_Ok T fuel L s HT Hrun) as Hbuilt.
  pose proof Hbuilt as (_ & HL & _ & _ & Hprimes).
  unfold EulerSieve.primes. rewrite Hprimes. split; [apply primes_between_sorted|].
  intros n. rewrite elem_of_primes_between by lia.
  split; [split; [tauto|intros [? Hp]; pose proof (Z.prime_ge_2 _ Hp); tauto]|].
  intros Hn. rewrite (min_prime_factor_cases T L s n) by done. split.
  - intros [Hr Hp]. split; [lia|]. rewrite Z.abs_eq by lia.
    destruct (Z.leb_spec n 1); [lia|]. destruct (Z.gtb_spec n L); [lia|].
    f_equal. by apply lpf_of_prime.
  - intros [HnL Hq].
    destruct (Z.leb_spec (Z.abs n) 1); [done|]. destruct (Z.gtb_spec (Z.abs n) L); [done|].
    injection Hq as Hq. pose proof (lpf_range (Z.abs n) ltac:(lia)) as [Hlo _].
    rewrite Hq in Hlo. rewrite Z.abs_eq in Hq by lia.
    split; [lia|]. apply lpf_fixed; [lia|done].
Qed.

Lemma EulerSieve_primes_spec_witness :
  exists s, @EulerSieve.EulerSieve lp64 uint16_t 64 30 = Ok s /\
  StronglySorted Z.lt (EulerSieve.primes s) /\
  forall n,
    (n ∈ EulerSieve.primes s <-> n <= 30 /\ Z.prime n) /\
    (in_range uint16_t n ->
       n ∈ EulerSieve.primes s <-> n <= 30 /\ EulerSieve.min_prime_factor uint16_t s n = Ok n).
Proof.
  eexists. split; [vm_compute; reflexivity|].
  apply (EulerSieve_primes_spec (H := lp64) uint16_t 64 30).
  - unfold in_range, it_min, it_max. simpl. lia.
  - vm_compute. reflexivity.
Defined.

(** C9.  When [Sieve (L)] and [EulerSieve (L)] are both constructed, they
    agree on every [n] with [2 <= n <= L]: [Sieve (L).is_prime (n)] is true
    exactly when [EulerSieve (L).min_prime_factor (n)] is [n]. *)
Theorem sieves_agree `{vector_impl} (T : int_type) (fuel fuel' : nat) (L : Z)
    (s : Sieve.t) (e : EulerSieve.t) (n : Z) :
  in_range T L -> Sieve.Sieve fuel L = Ok s -> EulerSieve.EulerSieve T fuel' L = Ok e ->
  2 <= n <= L ->
  (exists b, Sieve.is_prime s n = Ok b) /\
  (exists p, EulerSieve.min_prime_factor T e n = Ok p) /\
  (Sieve.is_prime s n = Ok true <-> EulerSieve.min_prime_factor T e n = Ok n).
Proof.
  intros HT Hs He Hn. pose proof (EulerSieve_Ok T fuel' L e HT He) as Hbuilt.
  pose proof Hbuilt as (_ & HL & _).
  destruct (Sieve_Ok fuel L s Hs ltac:(lia)) as (Hlim & _ & _ & Hdone).
  destruct (sieve_done_lookup L _ n Hdone ltac:(lia)) as (b & Hb & Hspec).
  assert (Hquery : Sieve.is_prime s n = Ok b).
  { unfold Sieve.is_prime. rewrite Hlim.
    destruct (Z.ltb_spec n 0); [lia|]. destruct (Z.gtb_spec n L); [lia|].
    rewrite u64_small by lia. apply vget_lookup; [lia|done]. }
  rewrite Hquery. rewrite (min_prime_factor_cases T L e n);
    [|done|pose proof (it_min_nonpos T); unfold in_range in *; lia|done].
  rewrite Z.abs_eq by lia.
  destruct (Z.leb_spec n 1); [lia|]. destruct (Z.gtb_spec n L); [lia|].
  split; [by eexists|]. split; [by eexists|].
  rewrite <- prime_iff_no_small_divisor in Hspec by lia. split.
  - intros [= ->]. f_equal. apply lpf_of_prime. by apply Hspec.
  - intros [= Hp]. f_equal. apply Hspec. split; [lia|]. apply lpf_fixed; [lia|done].
Qed.

Lemma sieves_agree_witness :
  exists s e, @Sieve.Sieve lp64 64 30 = Ok s /\
    @EulerSieve.EulerSieve lp64 int32_t 64 30 = Ok e /\
    (exists b, Sieve.is_prime s 23 = Ok b) /\
    (exists p, EulerSieve.min_prime_factor int32_t e 23 = Ok p) /\
    (Sieve.is_prime s 23 = Ok true <-> EulerSieve.min_prime_factor int32_t e 23 = Ok 23).
Proof.
  do 2 eexists. split; [vm_compute; reflexivity|]. split; [vm_compute; reflexivity|].
  apply (sieves_agree (H := lp64) int32_t 64 64 30 _ _ 23).
  - unfold in_range, it_min, it_max. simpl. lia.
  - vm_compute. reflexivity.
  - vm_compute. reflexivity.
  - lia.
Defined.

(** ** The tree of coprime pairs *)

Section coprime_tree.

Implicit Types (p c : Z * Z) (L : Z) (ps : list (Z * Z)).

Lemma gcd_step a b k : Z.gcd b (a + k * b) = Z.gcd a b.
Proof. rewrite Z.gcd_add_mult_diag_r. apply Z.gcd_comm. Qed.

Lemma tree_node_seeds p : p ∈ seeds -> tree_node p.
Proof.
  unfold seeds. rewrite !elem_of_cons, elem_of_nil.
  intros [->|[->|[]]]; (split; [simpl; lia|reflexivity]).
Qed.

(** A child of a tree node is a tree node with a larger first component,
    and [parent] leads back. *)
Lemma children_tree_node p c :
  tree_node p -> c ∈ children p -> tree_node c /\ p.1 < c.1 /\ parent c = p.
Proof.
  destruct p as [x y]. intros [Hxy Hgcd]. simpl in *.
  unfold children. simpl. rewrite !elem_of_cons, elem_of_nil.
  intros [->|[->|[->|[]]]]; unfold tree_node, parent; simpl.
  - split; [split; [lia|]|].
    + replace (2 * x - y) with (- y + 2 * x) by lia.
      rewrite Z.gcd_comm, gcd_step, Z.gcd_opp_l, Z.gcd_comm. done.
    + split; [lia|]. destruct (Z.ltb_spec (2 * x - y) (2 * x)); [|lia].
      f_equal. lia.
  - split; [split; [lia|]|].
    + replace (2 * x + y) with (y + 2 * x) by lia.
      rewrite Z.gcd_comm, gcd_step, Z.gcd_comm. done.
    + split; [lia|]. destruct (Z.ltb_spec (2 * x + y) (2 * x)); [lia|].
      destruct (Z.ltb_spec (2 * x + y) (3 * x)); [|lia]. f_equal. lia.
  - split; [split; [lia|]|].
    + rewrite Z.gcd_comm, gcd_step. done.
    + split; [lia|]. destruct (Z.ltb_spec (x + 2 * y) (2 * y)); [lia|].
      destruct (Z.ltb_spec (x + 2 * y) (3 * y)); [lia|]. f_equal. lia.
Qed.

Lemma gcd_multiple k b : 1 <= b -> 0 <= k -> Z.gcd (k * b) b = b.
Proof.
  intros Hb Hk. rewrite Z.gcd_comm.
  replace (k * b) with (0 + k * b) by lia. rewrite gcd_step. simpl.
  apply Z.abs_eq. lia.
Qed.

(** Every tree node that is not a root has its parent in the tree. *)
Lemma parent_tree_node p :
  tree_node p -> p ∉ seeds ->
  tree_node (parent p) /\ (parent p).1 < p.1 /\ p ∈ children (parent p).
Proof.
  destruct p as [a b]. intros [Hab Hgcd] Hseed. simpl in *.
  unfold parent, tree_node, children. simpl.
  destruct (Z.ltb_spec a (2 * b)) as [H2|H2]; simpl.
  - split; [split; [lia|]|split; [lia|]].
    + replace (2 * b - a) with (- a + 2 * b) by lia.
      rewrite gcd_step, Z.gcd_opp_l. done.
    + replace (2 * b - (2 * b - a)) with a by lia. apply list_elem_of_here.
  - assert (a <> 2 * b).
    { intros ->. rewrite gcd_multiple in Hgcd by lia. subst b.
      apply Hseed. apply list_elem_of_here. }
    destruct (Z.ltb_spec a (3 * b)) as [H3|H3]; simpl.
    + split; [split; [lia|]|split; [lia|]].
      * replace (a - 2 * b) with (a + (- 2) * b) by lia. rewrite gcd_step. done.
      * replace (2 * b + (a - 2 * b)) with a by lia.
        apply list_elem_of_further, list_elem_of_here.
    + assert (a <> 3 * b).
      { intros ->. rewrite gcd_multiple in Hgcd by lia. subst b.
        apply Hseed. apply list_elem_of_further, list_elem_of_here. }
      split; [split; [lia|]|split; [lia|]].
      * replace (a - 2 * b) with (a + (- 2) * b) by lia.
        rewrite Z.gcd_comm, gcd_step. done.
      * replace (a - 2 * b + 2 * b) with a by lia.
        do 2 apply list_elem_of_further. apply list_elem_of_here.
Qed.

(** The roots are nobody's children. *)
Lemma children_not_seeds p c : tree_node p -> c ∈ children p -> c ∉ seeds.
Proof.
  intros Hp Hc Hseed. destruct (children_tree_node p c Hp Hc) as (_ & _ & Hpar).
  revert Hseed. unfold seeds. rewrite !elem_of_cons, elem_of_nil.
  intros [->|[->|[]]]; subst p; destruct Hp as [Hp _]; simpl in Hp; lia.
Qed.

Lemma children_NoDup p : tree_node p -> NoDup (children p).
Proof.
  destruct p as [x y]. intros [Hxy _]. simpl in *. unfold children. simpl.
  repeat (apply NoDup_cons; split; [rewrite ?elem_of_cons, elem_of_nil; intros H; 
    repeat destruct H as [H|H]; try done; injection H; lia|]).
  apply NoDup_nil_2.
Qed.

(** A list that holds the roots up to [L] and, with each of its pairs, the
    children up to [L] holds every tree node up to [L]. *)
Lemma closed_complete L ps :
  (forall p, p ∈ seeds -> p.1 <= L -> p ∈ ps) ->
  (forall p c, p ∈ ps -> tree_node p -> c ∈ children p -> c.1 <= L -> c ∈ ps) ->
  forall p, tree_node p -> p.1 <= L -> p ∈ ps.
Proof.
  intros Hseeds Hclosed.
  assert (Hind : forall n p, p.1 <= n -> tree_node p -> p.1 <= L -> p ∈ ps).
  { intros n. destruct (Z_lt_le_dec n 0) as [Hneg|Hpos].
    - intros p Hn [Hp _]. lia.
    - revert n Hpos. apply (natlike_ind (fun n => forall p, p.1 <= n -> tree_node p -> p.1 <= L -> p ∈ ps)).
      + intros p Hn [Hp _]. lia.
      + intros n Hn IH p Hpn Hp HpL.
        destruct (decide (p ∈ seeds)) as [Hs|Hs]; [by apply Hseeds|].
        destruct (parent_tree_node p Hp Hs) as (Hpar & Hlt & Hchild).
        apply (Hclosed (parent p)); [|done..].
        apply IH; [lia|done|lia]. }
  intros p. by apply (Hind p.1).
Qed.

End coprime_tree.

(** ** The work-list loop of [coprime_pairs] as a step relation *)

Section coprime_loop.

Context `{vector_impl}.
Implicit Types (T : int_type) (L : Z) (p c : Z * Z) (ps : list (Z * Z)).

Lemma push_back_Ok {A} (v : list A) x v' :
  push_back v x = Ok v' -> v' = v ++ [x] /\ Z.of_nat (length v) < max_size.
Proof.
  unfold push_back. destruct (Z.ltb_spec (Z.of_nat (length v)) max_size); [|done].
  by intros [= <-].
Qed.

Lemma push_back_fits {A} (v : list A) x :
  Z.of_nat (length v) < max_size -> push_back v x = Ok (v ++ [x]).
Proof.
  intros Hlen. unfold push_back.
  by destruct (Z.ltb_spec (Z.of_nat (length v)) max_size); [|lia].
Qed.

Lemma accepted_singleton L c : accepted L [c] = if decide (c.1 <= L) then [c] else [].
Proof. unfold accepted. by rewrite filter_cons, filter_nil. Qed.

Lemma accepted_app L cs cs' : accepted L (cs ++ cs') = accepted L cs ++ accepted L cs'.
Proof. apply filter_app. Qed.

Lemma elem_of_accepted L cs c : c ∈ accepted L cs <-> c.1 <= L /\ c ∈ cs.
Proof. unfold accepted. by rewrite list_elem_of_filter. Qed.

(** [add_pair] on components that [T] holds. *)
Lemma add_pair_eq T L ps a b :
  in_range T L -> 0 <= a -> 0 <= b <= L ->
  add_pair T L ps a b = if a <=? L then push_back ps (a, b) else Ok ps.
Proof.
  intros HT Ha Hb. unfold add_pair. destruct (Z.leb_spec a L); [|done].
  rewrite !wrap_in_range by (eapply in_range_nonneg; [done|lia]). done.
Qed.

Lemma add_pair_Ok T L ps a b ps' :
  in_range T L -> 0 <= a -> 0 <= b <= L -> add_pair T L ps a b = Ok ps' ->
  ps' = ps ++ accepted L [(a, b)] /\
  Z.of_nat (length ps') <= Z.max (Z.of_nat (length ps)) max_size.
Proof.
  intros HT Ha Hb. rewrite add_pair_eq by done. rewrite accepted_singleton. simpl.
  destruct (Z.leb_spec a L); case_decide; try lia.
  - intros [-> Hlen]%push_back_Ok. split; [done|]. rewrite length_app. simpl. lia.
  - intros [= <-]. rewrite app_nil_r. split; [done|lia].
Qed.

Lemma add_pair_fits T L ps a b :
  in_range T L -> 0 <= a -> 0 <= b <= L ->
  Z.of_nat (length (ps ++ accepted L [(a, b)])) <= max_size ->
  add_pair T L ps a b = Ok (ps ++ accepted L [(a, b)]).
Proof.
  intros HT Ha Hb. rewrite add_pair_eq by done. rewrite accepted_singleton. simpl.
  destruct (Z.leb_spec a L); case_decide; try lia.
  - rewrite length_app. simpl. intros Hlen. apply push_back_fits. lia.
  - by rewrite app_nil_r.
Qed.

Lemma children64_split p :
  children64 p =
    [(u64 (u64 (2 * p.1) - p.2), p.1)] ++ [(u64 (u64 (2 * p.1) + p.2), p.1)] ++
    [(u64 (p.1 + u64 (2 * p.2)), p.2)].
Proof. done. Qed.

(** The body of the loop appends the accepted children. *)
Lemma loop_body_Ok T L ps p ps3 :
  in_range T L -> in_box L p ->
  (ps1 ← add_pair T L ps (u64 (u64 (2 * p.1) - p.2)) p.1;
   ps2 ← add_pair T L ps1 (u64 (u64 (2 * p.1) + p.2)) p.1;
   add_pair T L ps2 (u64 (p.1 + u64 (2 * p.2))) p.2) = Ok ps3 ->
  ps3 = ps ++ accepted L (children64 p) /\
  Z.of_nat (length ps3) <= Z.max (Z.of_nat (length ps)) max_size.
Proof.
  intros HT [Hx Hy] Hrun. inv_bind Hrun.
  apply add_pair_Ok in Hstep as [-> Hlen1]; [|done|apply u64_range|done].
  apply add_pair_Ok in Hstep0 as [-> Hlen2]; [|done|apply u64_range|done].
  apply add_pair_Ok in Hrun as [-> Hlen3]; [|done|apply u64_range|done].
  split; [|lia]. by rewrite children64_split, !accepted_app, <- !(assoc_L (++)).
Qed.

Lemma loop_body_fits T L ps p :
  in_range T L -> in_box L p ->
  Z.of_nat (length (ps ++ accepted L (children64 p))) <= max_size ->
  (ps1 ← add_pair T L ps (u64 (u64 (2 * p.1) - p.2)) p.1;
   ps2 ← add_pair T L ps1 (u64 (u64 (2 * p.1) + p.2)) p.1;
   add_pair T L ps2 (u64 (p.1 + u64 (2 * p.2))) p.2) = Ok (ps ++ accepted L (children64 p)).
Proof.
  intros HT [Hx Hy]. rewrite children64_split, !accepted_app, !length_app. intros Hlen.
  rewrite add_pair_fits; [|done|apply u64_range|done|rewrite length_app; lia]. simpl.
  rewrite add_pair_fits; [|done|apply u64_range|done|rewrite !length_app; lia]. simpl.
  rewrite add_pair_fits; [|done|apply u64_range|done|rewrite !length_app; lia].
  by rewrite <- !(assoc_L (++)).
Qed.

Lemma accepted_in_box L p : in_box L p -> Forall (in_box L) (accepted L (children64 p)).
Proof.
  intros [Hx Hy]. apply Forall_forall. intros c [Hc Hin]%elem_of_accepted.
  revert Hin Hc. unfold children64. rewrite !elem_of_cons, elem_of_nil.
  intros [->|[->|[->|[]]]]; simpl; intros Hc; (split; [|done]);
    (split; [apply u64_range|done]).
Qed.

(** A successful run of the loop of the model is a run of the relation. *)
Lemma coprime_loop_bfs T fuel L visited ps final :
  in_range T L -> L < 2 ^ 64 -> max_size <= 2 ^ 63 - 1 -> 0 <= visited ->
  Forall (in_box L) ps -> Z.of_nat (length ps) <= Z.max 0 max_size ->
  coprime_loop T fuel L visited ps = Ok final ->
  bfs L visited ps final /\ Forall (in_box L) final /\
  Z.of_nat (length final) <= Z.max 0 max_size.
Proof.
  intros HT HL Hmax. revert visited ps.
  induction fuel as [|fuel IH]; intros visited ps Hv Hbox Hlen; simpl; [done|].
  destruct (Z.ltb_spec visited (Z.of_nat (length ps))) as [Hlt|Hge].
  - intros Hrun. apply bind_Ok in Hrun as (p & Hget & Hrun).
    apply vget_Ok in Hget as [_ Hget].
    assert (Hp : in_box L p).
    { rewrite Forall_forall in Hbox. apply Hbox. by eapply list_elem_of_lookup_2. }
    pose proof Hp as [Hx Hy].
    rewrite !(u64_small p.1), !(u64_small p.2) in Hrun by lia.
    apply bind_Ok in Hrun as (ps1 & Hadd1 & Hrun).
    apply bind_Ok in Hrun as (ps2 & Hadd2 & Hrun).
    apply bind_Ok in Hrun as (ps3 & Hadd3 & Hrun).
    destruct (loop_body_Ok T L ps p ps3 HT Hp) as [-> Hlen3].
    { rewrite Hadd1. simpl. rewrite Hadd2. simpl. done. }
    rewrite u64_small in Hrun by lia.
    apply IH in Hrun as (Hbfs & Hbox' & Hlen'); [|lia| |lia].
    + split; [|done]. by eapply bfs_step.
    + apply Forall_app. split; [done|]. by apply accepted_in_box.
  - intros [= <-]. split; [by apply bfs_done|done].
Qed.

End coprime_loop.

(** ** Properties of the runs *)

Section bfs.

Implicit Types (L : Z) (p c : Z * Z) (ps : list (Z * Z)).

(** The list only grows. *)
Lemma bfs_prefix L visited ps final : bfs L visited ps final -> ps `prefix_of` final.
Proof.
  induction 1 as [|visited ps p final Hv Hp _ IH]; [done|].
  etrans; [|exact IH]. by apply prefix_app_r.
Qed.

(** At the end, the accepted children of every pair from the cursor on
    are in the list, whether or not a child overflowed. *)
Lemma bfs_closed L visited ps final :
  bfs L visited ps final ->
  forall i p c, visited <= Z.of_nat i -> final !! i = Some p ->
    c ∈ accepted L (children64 p) -> c ∈ final.
Proof.
  induction 1 as [visited ps Hlen|visited ps q final Hv Hq Hrun IH]; intros i p c Hi Hp Hc.
  - apply lookup_lt_Some in Hp. lia.
  - destruct (decide (Z.of_nat i = visited)) as [<-|Hne].
    + rewrite Nat2Z.id in Hq.
      pose proof (bfs_prefix _ _ _ _ Hrun) as Hpre.
      assert (p = q) as ->.
      { apply (prefix_lookup_Some _ _ i q) in Hpre; [congruence|].
        by apply lookup_app_l_Some. }
      destruct Hpre as [rest ->]. rewrite !elem_of_app. by left; right.
    + apply (IH i p c); [lia|done..].
Qed.

(** A property that every step preserves holds at the end. *)
Lemma bfs_invariant L (I : Z -> list (Z * Z) -> Prop) visited ps final :
  (forall visited ps p, I visited ps -> 0 <= visited -> ps !! Z.to_nat visited = Some p ->
     I (visited + 1) (ps ++ accepted L (children64 p))) ->
  bfs L visited ps final -> I visited ps ->
  exists visited', Z.of_nat (length final) <= visited' /\ I visited' final.
Proof.
  intros Hstep. induction 1 as [visited ps Hlen|visited ps q final Hv Hq Hrun IH]; intros HI.
  - by exists visited.
  - apply IH. by apply Hstep.
Qed.

(** Below [2 ^ 64 / 3] the children are computed without overflow. *)
Lemma children64_exact L p :
  3 * L < 2 ^ 64 -> tree_node p -> p.1 <= L -> children64 p = children p.
Proof.
  destruct p as [x y]. intros HL [Hxy _] Hx. simpl in *.
  unfold children64, children. simpl.
  rewrite (u64_small (2 * x)), (u64_small (2 * y)) by lia.
  rewrite !u64_small by lia. done.
Qed.

Lemma bfs_inv_step L visited ps p :
  3 * L < 2 ^ 64 -> bfs_inv L visited ps -> 0 <= visited ->
  ps !! Z.to_nat visited = Some p ->
  bfs_inv L (visited + 1) (ps ++ accepted L (children64 p)).
Proof.
  intros HL (Hv & Hnd & Hnodes & Hanc) _ Hp.
  assert (Hin : p ∈ ps) by by eapply list_elem_of_lookup_2.
  destruct (Hnodes p Hin) as [Hnode HpL].
  rewrite (children64_exact L p) by done.
  pose proof (lookup_lt_Some _ _ _ Hp) as Hlt.
  split; [rewrite length_app; lia|]. split; [|split].
  - apply NoDup_app. split; [done|]. split.
    + intros c Hc [_ Hchild]%elem_of_accepted.
      apply list_elem_of_lookup_1 in Hc as [j Hj].
      destruct (Hanc j c Hj) as [Hseed|(i & _ & Hi & Hpar)].
      * by apply (children_not_seeds p c).
      * destruct (children_tree_node p c Hnode Hchild) as (_ & _ & Heq).
        rewrite Heq in Hpar.
        pose proof (NoDup_lookup _ _ _ _ Hnd Hpar Hp). lia.
    + apply NoDup_filter. by apply children_NoDup.
  - intros c [Hc|[HcL Hchild]%elem_of_accepted]%elem_of_app; [by apply Hnodes|].
    split; [|done]. by apply (children_tree_node p c).
  - intros j c Hj. apply lookup_app_Some in Hj as [Hj|[Hge Hj]].
    + destruct (Hanc j c Hj) as [?|(i & ? & ? & Hpar)]; [by left|].
      right. exists i. split; [done|]. split; [lia|]. by apply lookup_app_l_Some.
    + right. exists (Z.to_nat visited).
      apply list_elem_of_lookup_2, elem_of_accepted in Hj as [_ Hchild].
      destruct (children_tree_node p c Hnode Hchild) as (_ & _ & ->).
      split; [lia|]. split; [lia|]. by apply lookup_app_l_Some.
Qed.

End bfs.

(** ** Counting pairs *)

Section counting.

Implicit Types (L : Z) (p c : Z * Z) (ps final : list (Z * Z)).

(** A list without repeats of pairs of [[0, L]] has at most [(L + 1) ^ 2]
    elements. *)
Lemma NoDup_box_length L ps :
  0 <= L -> NoDup ps -> Forall (in_box L) ps ->
  Z.of_nat (length ps) <= (L + 1) * (L + 1).
Proof.
  intros HL Hnd Hbox. rewrite Forall_forall in Hbox.
  pose (code := fun p : Z * Z => p.1 * (L + 1) + p.2).
  assert (Hsub : code <$> ps ⊆+ seqZ 0 ((L + 1) * (L + 1))).
  { apply NoDup_submseteq.
    - apply NoDup_fmap_2_strong; [|done].
      intros [x y] [x' y'] [Hx Hy]%Hbox [Hx' Hy']%Hbox. unfold code. simpl in *.
      intros Heq. assert (x = x') by nia. subst x'. f_equal. lia.
    - intros n [p [-> [Hx Hy]%Hbox]]%list_elem_of_fmap.
      apply elem_of_seqZ. unfold code. nia. }
  apply submseteq_length in Hsub. rewrite length_fmap, length_seqZ in Hsub. lia.
Qed.

Lemma u64_sub_l a b : u64 (u64 a - b) = u64 (a - b).
Proof. unfold u64, wrap. simpl. apply Zminus_mod_idemp_l. Qed.

Lemma u64_add_r a b : u64 (a + u64 b) = u64 (a + b).
Proof. unfold u64, wrap. simpl. apply Zplus_mod_idemp_r. Qed.

(** Two chains of the tree reach every first component up to [L], also
    when other children overflow: [(x, 1)] and [(x, x - 1)]. *)
Lemma closed_chains L final :
  L < 2 ^ 64 ->
  (forall p c, p ∈ final -> c ∈ accepted L (children64 p) -> c ∈ final) ->
  (forall p, p ∈ accepted L seeds -> p ∈ final) ->
  forall x, 2 <= x <= L -> (x, 1) ∈ final /\ (x, x - 1) ∈ final.
Proof.
  intros HL Hclosed Hseeds.
  assert (H2 : 2 <= L -> (2, 1) ∈ final).
  { intros ?. apply Hseeds, elem_of_accepted. split; [done|]. apply list_elem_of_here. }
  assert (H3 : 3 <= L -> (3, 1) ∈ final).
  { intros ?. apply Hseeds, elem_of_accepted. split; [done|].
    apply list_elem_of_further, list_elem_of_here. }
  assert (Hone : forall n : nat,
    (2 + Z.of_nat n <= L -> (2 + Z.of_nat n, 1) ∈ final) /\
    (3 + Z.of_nat n <= L -> (3 + Z.of_nat n, 1) ∈ final)).
  { induction n as [|n [IH2 IH3]].
    - split; intros ?; [apply H2|apply H3]; lia.
    - split; intros Hn.
      + replace (2 + Z.of_nat (S n)) with (3 + Z.of_nat n) by lia. apply IH3. lia.
      + apply (Hclosed (2 + Z.of_nat n, 1)); [apply IH2; lia|].
        apply elem_of_accepted. unfold children64. simpl.
        assert (u64 (2 + Z.of_nat n + u64 (2 * 1)) = 3 + Z.of_nat (S n)) as ->
          by (rewrite u64_add_r, u64_small; lia).
        split; [done|]. do 2 apply list_elem_of_further. apply list_elem_of_here. }
  assert (Hdiag : forall n : nat,
    2 + Z.of_nat n <= L -> (2 + Z.of_nat n, 2 + Z.of_nat n - 1) ∈ final).
  { induction n as [|n IH]; intros Hn.
    - apply H2. lia.
    - apply (Hclosed (2 + Z.of_nat n, 2 + Z.of_nat n - 1)); [apply IH; lia|].
      apply elem_of_accepted. unfold children64. simpl.
      assert (u64 (u64 (2 * (2 + Z.of_nat n)) - (2 + Z.of_nat n - 1)) = 2 + Z.of_nat (S n)) as ->
        by (rewrite u64_sub_l, u64_small; lia).
      replace (2 + Z.of_nat (S n) - 1) with (2 + Z.of_nat n) by lia.
      split; [done|]. apply list_elem_of_here. }
  intros x Hx. replace x with (2 + Z.of_nat (Z.to_nat (x - 2))) by lia.
  split; [apply Hone|apply Hdiag]; lia.
Qed.

(** So a closed list has at least [2 L - 3] elements. *)
Lemma closed_length L final :
  3 <= L < 2 ^ 64 ->
  (forall p c, p ∈ final -> c ∈ accepted L (children64 p) -> c ∈ final) ->
  (forall p, p ∈ accepted L seeds -> p ∈ final) ->
  2 * L - 3 <= Z.of_nat (length final).
Proof.
  intros HL Hclosed Hseeds.
  pose proof (closed_chains L final ltac:(lia) Hclosed Hseeds) as Hchains.
  pose (chain := ((fun x => (x, 1)) <$> seqZ 2 (L - 1)) ++
                 ((fun x => (x, x - 1)) <$> seqZ 3 (L - 2))).
  assert (Hsub : chain ⊆+ final).
  { apply NoDup_submseteq.
    - apply NoDup_app. split; [|split].
      + apply NoDup_fmap_2_strong; [|apply NoDup_seqZ]. by intros x y _ _ [= ->].
      + intros p [x [-> Hx]]%list_elem_of_fmap [y [Heq Hy]]%list_elem_of_fmap.
        apply elem_of_seqZ in Hy. injection Heq as -> ?. lia.
      + apply NoDup_fmap_2_strong; [|apply NoDup_seqZ]. by intros x y _ _ [= ->].
    - intros p [[x [-> Hx]]%list_elem_of_fmap|[x [-> Hx]]%list_elem_of_fmap]%elem_of_app;
        apply elem_of_seqZ in Hx; apply Hchains; lia. }
  apply submseteq_length in Hsub. unfold chain in Hsub.
  rewrite length_app, !length_fmap, !length_seqZ in Hsub. lia.
Qed.

(** The brute-force scan lists every coprime pair up to [L] once. *)
Lemma elem_of_box_pairs L x y : (x, y) ∈ box_pairs L <-> 0 <= y <= x /\ x <= L.
Proof.
  unfold box_pairs. rewrite list_elem_of_bind. split.
  - intros (x' & [y' [[= -> ->] Hy]]%list_elem_of_fmap & Hx).
    apply elem_of_seqZ in Hx, Hy. lia.
  - intros [Hy Hx]. exists x. split; [|apply elem_of_seqZ; lia].
    apply list_elem_of_fmap. exists y. split; [done|]. apply elem_of_seqZ. lia.
Qed.

Lemma NoDup_box_pairs L : NoDup (box_pairs L).
Proof.
  apply NoDup_bind; [| |apply NoDup_seqZ].
  - intros x1 x2 p _ _ [y1 [-> _]]%list_elem_of_fmap [y2 [[= -> _] _]]%list_elem_of_fmap.
    done.
  - intros x _. apply NoDup_fmap_2_strong; [|apply NoDup_seqZ]. by intros y1 y2 _ _ [= ->].
Qed.

Lemma elem_of_coprime_list L x y :
  (x, y) ∈ coprime_list L <-> 0 <= y <= x /\ x <= L /\ Z.gcd x y = 1.
Proof. unfold coprime_list. rewrite list_elem_of_filter, elem_of_box_pairs. simpl. tauto. Qed.

Lemma NoDup_coprime_list L : NoDup (coprime_list L).
Proof. apply NoDup_filter, NoDup_box_pairs. Qed.

Lemma NoDup_boundary : NoDup boundary.
Proof.
  apply NoDup_cons. split; [|apply NoDup_singleton]. rewrite list_elem_of_singleton. done.
Qed.

(** A list without repeats of coprime pairs up to [L] is no longer than
    the scan, and as long when it has them all. *)
Lemma coprime_count_le L ps :
  NoDup ps ->
  (forall x y, (x, y) ∈ ps -> 0 <= y <= x /\ x <= L /\ Z.gcd x y = 1) ->
  Z.of_nat (length ps) <= coprime_count L.
Proof.
  intros Hnd Hin. unfold coprime_count.
  assert (ps ⊆+ coprime_list L) as Hsub%submseteq_length; [|lia].
  apply NoDup_submseteq; [done|]. intros [x y] Hp. by apply elem_of_coprime_list, Hin.
Qed.

Lemma coprime_count_unique L ps :
  NoDup ps ->
  (forall x y, (x, y) ∈ ps <-> 0 <= y <= x /\ x <= L /\ Z.gcd x y = 1) ->
  Z.of_nat (length ps) = coprime_count L.
Proof.
  intros Hnd Hin. unfold coprime_count. f_equal. apply Permutation_length.
  apply NoDup_Permutation; [done|apply NoDup_coprime_list|].
  intros [x y]. by rewrite Hin, elem_of_coprime_list.
Qed.

Lemma coprime_count_square L : 0 <= L -> coprime_count L <= (L + 1) * (L + 1).
Proof.
  intros HL. apply NoDup_box_length; [done|apply NoDup_coprime_list|].
  apply Forall_forall. intros [x y] Hp%elem_of_coprime_list. unfold in_box. simpl. lia.
Qed.

(** The pairs [(x, 1)], [(x, x - 1)] and the two boundary pairs are
    coprime: there are at least [2 L - 1] coprime pairs up to [L]. *)
Lemma coprime_count_lower L : 2 <= L -> 2 * L - 1 <= coprime_count L.
Proof.
  intros HL.
  pose (chain := ((fun x => (x, 1)) <$> seqZ 2 (L - 1)) ++
                 ((fun x => (x, x - 1)) <$> seqZ 3 (L - 2)) ++ boundary).
  assert (Hb : forall x y, (x, y) ∈ boundary -> x = 1 /\ 0 <= y <= 1).
  { intros x y. unfold boundary. rewrite !elem_of_cons, elem_of_nil.
    intros [[= -> ->]|[[= -> ->]|[]]]; lia. }
  assert (Hsub : chain ⊆+ coprime_list L).
  { apply NoDup_submseteq.
    - apply NoDup_app. split; [|split].
      + apply NoDup_fmap_2_strong; [|apply NoDup_seqZ]. by intros x y _ _ [= ->].
      + intros p [x [-> Hx]]%list_elem_of_fmap.
        apply elem_of_seqZ in Hx.
        intros [[y [Heq Hy]]%list_elem_of_fmap|Hp%Hb]%elem_of_app; [|lia].
        apply elem_of_seqZ in Hy. injection Heq as -> ?. lia.
      + apply NoDup_app. split; [|split; [|apply NoDup_boundary]].
        * apply NoDup_fmap_2_strong; [|apply NoDup_seqZ]. by intros x y _ _ [= ->].
        * intros p [x [-> Hx]]%list_elem_of_fmap Hp%Hb. apply elem_of_seqZ in Hx. lia.
    - intros [x y]. unfold chain. rewrite !elem_of_app, elem_of_coprime_list.
      intros [[x' [[= -> ->] Hx]]%list_elem_of_fmap|
              [[x' [[= -> ->] Hx]]%list_elem_of_fmap|Hp]].
      + apply elem_of_seqZ in Hx. split; [lia|]. split; [lia|]. apply Z.gcd_1_r.
      + apply elem_of_seqZ in Hx. split; [lia|]. split; [lia|].
        apply Z.bezout_1_gcd. exists 1, (-1). lia.
      + pose proof (Hb x y Hp) as [-> Hy]. split; [lia|]. split; [lia|].
        apply Z.gcd_1_l. }
  apply submseteq_length in Hsub. unfold chain, coprime_count, boundary in *.
  rewrite !length_app, !length_fmap, !length_seqZ in Hsub. simpl in Hsub. lia.
Qed.

End counting.

(** ** [coprime_pairs] *)

Section coprime_pairs.

Context `{vector_impl}.
Implicit Types (T : int_type) (L : Z) (p c : Z * Z) (ps tree final : list (Z * Z)).

Lemma accepted_seeds L : accepted L seeds = accepted L [(2, 1)] ++ accepted L [(3, 1)].
Proof. by rewrite <- accepted_app. Qed.

Lemma bfs_inv_seeds L : bfs_inv L 0 (accepted L seeds).
Proof.
  split; [lia|]. split; [|split].
  - apply NoDup_filter. unfold seeds. apply NoDup_cons. split; [|apply NoDup_singleton].
    rewrite list_elem_of_singleton. done.
  - intros p [HpL Hp]%elem_of_accepted. split; [by apply tree_node_seeds|done].
  - intros j p Hp. left. apply list_elem_of_lookup_2, elem_of_accepted in Hp. tauto.
Qed.

(** The steps of a successful call. *)
Lemma coprime_pairs_Ok T fuel L ps :
  in_range T L -> 1 <= L -> coprime_pairs T fuel L = Ok ps ->
  exists tree,
    L < 2 ^ 64 /\
    Z.of_nat (length (accepted L seeds)) <= Z.max 0 max_size /\
    coprime_loop T fuel L 0 (accepted L seeds) = Ok tree /\
    ps = tree ++ [(1, 0); (1, 1)] /\
    Z.of_nat (length ps) <= max_size.
Proof.
  intros HT HL. unfold coprime_pairs. destruct (Z.leb_spec L 0); [lia|].
  intros Hrun. inv_bind Hrun.
  apply numeric_cast_Ok in Hstep as [-> HL64%in_range_u64].
  apply add_pair_Ok in Hstep0 as [-> Hlen0]; [|done|lia|lia].
  apply add_pair_Ok in Hstep1 as [-> Hlen1]; [|done|lia|lia].
  rewrite app_nil_l, <- accepted_seeds in *.
  apply add_pair_Ok in Hstep3 as [-> Hlen3]; [|done|lia|lia].
  pose proof Hrun as Hlast. rewrite add_pair_eq in Hlast by (done || lia).
  destruct (Z.leb_spec 1 L); [|lia]. apply push_back_Ok in Hlast as [_ Hlast].
  apply add_pair_Ok in Hrun as [-> Hlen4]; [|done|lia|lia].
  rewrite !accepted_singleton in *. simpl in *.
  rewrite !decide_True in * by done.
  exists a2. split; [lia|]. split; [simpl in *; lia|]. split; [done|].
  split; [by rewrite <- (assoc_L (++))|]. rewrite !length_app in *. simpl in *. lia.
Qed.

(** What a successful run of the loop from the roots establishes. *)
Lemma tree_run_spec T fuel L tree :
  in_range T L -> 1 <= L < 2 ^ 64 -> max_size <= 2 ^ 63 - 1 ->
  Z.of_nat (length (accepted L seeds)) <= Z.max 0 max_size ->
  coprime_loop T fuel L 0 (accepted L seeds) = Ok tree ->
  3 * L < 2 ^ 64 /\ bfs L 0 (accepted L seeds) tree /\
  bfs_inv L (Z.of_nat (length tree)) tree /\
  (forall p, tree_node p -> p.1 <= L -> p ∈ tree).
Proof.
  intros HT HL Hmax Hlen0 Hrun.
  pose proof (bfs_inv_seeds L) as Hinv0.
  apply coprime_loop_bfs in Hrun as (Hbfs & Hbox & Hlen); [|done|lia|done|lia| |done].
  2:{ apply Forall_forall. intros p Hp. destruct Hinv0 as (_ & _ & Hnodes & _).
      destruct (Hnodes p Hp) as [[? _] ?]. unfold in_box. lia. }
  assert (Hclosed : forall p c, p ∈ tree -> c ∈ accepted L (children64 p) -> c ∈ tree).
  { intros p c [i Hp]%list_elem_of_lookup_1 Hc. apply (bfs_closed _ _ _ _ Hbfs i p c); [lia|done..]. }
  assert (Hseeds : forall p, p ∈ accepted L seeds -> p ∈ tree).
  { intros p Hp. destruct (bfs_prefix _ _ _ _ Hbfs) as [rest ->].
    apply elem_of_app. by left. }
  assert (HL3 : 3 * L < 2 ^ 64).
  { destruct (Z_lt_le_dec L 3) as [|HL3]; [lia|].
    pose proof (closed_length L tree ltac:(lia) Hclosed Hseeds). lia. }
  split; [done|]. split; [done|].
  destruct (bfs_invariant L (bfs_inv L) 0 (accepted L seeds) tree) as (v & Hv & Hinv); [|done|done|].
  { intros visited ps p. by apply bfs_inv_step. }
  assert (v = Z.of_nat (length tree)) as -> by (destruct Hinv as [? _]; lia).
  split; [done|]. destruct Hinv as (_ & _ & Hnodes & _).
  apply (closed_complete L).
  - intros p Hp HpL. apply Hseeds, elem_of_accepted. done.
  - intros p c Hp Hnode Hc HcL. apply (Hclosed p); [done|].
    rewrite (children64_exact L) by (done || by apply Hnodes).
    by apply elem_of_accepted.
Qed.

(** The coprime pairs of [[0, L]] that are not tree nodes are the two
    boundary pairs. *)
Lemma coprime_cases L x y :
  1 <= L ->
  0 <= y <= x /\ x <= L /\ Z.gcd x y = 1 <->
  (tree_node (x, y) /\ x <= L) \/ (x, y) = (1, 0) \/ (x, y) = (1, 1).
Proof.
  intros HL. unfold tree_node. simpl. split.
  - intros (Hxy & HxL & Hgcd).
    destruct (Z.eq_dec y 0) as [->|Hy0].
    { rewrite Z.gcd_0_r in Hgcd. right. left. f_equal. lia. }
    destruct (Z.eq_dec y x) as [->|Hyx].
    { rewrite Z.gcd_diag in Hgcd. right. right. f_equal; lia. }
    left. split; [|done]. split; [lia|done].
  - intros [[[Hxy Hgcd] HxL]|[[= -> ->]|[= -> ->]]].
    + split; [lia|]. done.
    + split; [lia|]. split; [lia|]. reflexivity.
    + split; [lia|]. split; [lia|]. reflexivity.
Qed.

(** What a returned sequence holds. *)
Lemma coprime_pairs_sound T fuel L ps :
  in_range T L -> max_size <= 2 ^ 63 - 1 -> coprime_pairs T fuel L = Ok ps ->
  NoDup ps /\
  forall x y, (x, y) ∈ ps <-> 0 <= y <= x /\ x <= L /\ Z.gcd x y = 1.
Proof.
  intros HT Hmax Hrun.
  destruct (Z_le_gt_dec L 0) as [HL|HL].
  - unfold coprime_pairs in Hrun. destruct (Z.leb_spec L 0); [|lia].
    injection Hrun as <-. split; [apply NoDup_nil_2|].
    intros x y. split; [by intros ?%elem_of_nil|]. intros (Hxy & HxL & Hgcd).
    assert (x = 0) as -> by lia. assert (y = 0) as -> by lia. done.
  - destruct (coprime_pairs_Ok T fuel L ps HT ltac:(lia) Hrun)
      as (tree & HL64 & Hlen0 & Hloop & -> & _).
    destruct (tree_run_spec T fuel L tree HT ltac:(lia) Hmax Hlen0 Hloop)
      as (_ & _ & (_ & Hnd & Hnodes & _) & Hcomplete).
    split.
    + apply NoDup_app. split; [done|]. split.
      * intros p [[Hp _] _]%Hnodes. rewrite !elem_of_cons, elem_of_nil.
        intros [->|[->|[]]]; simpl in Hp; lia.
      * apply NoDup_cons. split; [|apply NoDup_singleton].
        rewrite list_elem_of_singleton. done.
    + intros x y. rewrite (coprime_cases L x y) by lia.
      rewrite elem_of_app, !elem_of_cons, elem_of_nil. split.
      * intros [Hp|[?|[?|[]]]]; [left|tauto..]. by apply Hnodes in Hp.
      * intros [[Hnode HxL]|[?|?]]; [left|tauto..]. by apply Hcomplete.
Qed.

(** A returned sequence is as long as the brute-force scan, and fits a
    vector. *)
Lemma coprime_pairs_length T fuel L ps :
  in_range T L -> max_size <= 2 ^ 63 - 1 -> coprime_pairs T fuel L = Ok ps ->
  Z.of_nat (length ps) = coprime_count L /\ (1 <= L -> coprime_count L <= max_size).
Proof.
  intros HT Hmax Hrun.
  destruct (coprime_pairs_sound T fuel L ps HT Hmax Hrun) as [Hnd Hin].
  pose proof (coprime_count_unique L ps Hnd Hin) as Hlen. split; [done|].
  intros HL. destruct (coprime_pairs_Ok T fuel L ps HT HL Hrun) as (_ & _ & _ & _ & _ & ?).
  lia.
Qed.

End coprime_pairs.

(** ** Termination of [coprime_pairs] *)

Section coprime_termination.

Context `{vector_impl}.
Implicit Types (T : int_type) (L : Z) (p c : Z * Z) (ps tree final : list (Z * Z)).

Lemma add_pair_result T lim ps x y :
  (exists ps', add_pair T lim ps x y = Ok ps' /\
     Z.of_nat (length ps') <= Z.max (Z.of_nat (length ps)) max_size) \/
  add_pair T lim ps x y = Throw LengthError.
Proof.
  unfold add_pair, push_back. destruct (x <=? lim); [|left; eexists; split; [done|lia]].
  destruct (Z.ltb_spec (Z.of_nat (length ps)) max_size); [|by right].
  left. eexists. split; [done|]. rewrite length_app. simpl. lia.
Qed.

(** The cursor advances at every step and the vector cannot outgrow
    [max_size]: the loop ends. *)
Lemma coprime_loop_halts T lim fuel visited ps :
  max_size <= 2 ^ 63 - 1 -> 0 <= visited ->
  Z.of_nat (length ps) <= Z.max 0 max_size ->
  (Z.to_nat (Z.max 0 max_size + 1 - visited) < fuel)%nat ->
  halted (coprime_loop T fuel lim visited ps).
Proof.
  intros Hmax. revert visited ps.
  induction fuel as [|fuel IH]; intros visited ps Hv Hlen Hfuel; simpl; [lia|].
  destruct (Z.ltb_spec visited (Z.of_nat (length ps))) as [Hlt|Hge]; [|done].
  destruct (vget_defined ps visited _ ltac:(lia) eq_refl) as (cur & -> & _). simpl.
  destruct (add_pair_result T lim ps (u64 (u64 (2 * u64 cur.1) - u64 cur.2)) (u64 cur.1))
    as [(ps1 & -> & Hlen1)| ->]; [simpl|done].
  destruct (add_pair_result T lim ps1 (u64 (u64 (2 * u64 cur.1) + u64 cur.2)) (u64 cur.1))
    as [(ps2 & -> & Hlen2)| ->]; [simpl|done].
  destruct (add_pair_result T lim ps2 (u64 (u64 cur.1 + u64 (2 * u64 cur.2))) (u64 cur.2))
    as [(ps3 & -> & Hlen3)| ->]; [simpl|done].
  rewrite (u64_small (visited + 1)) by lia.
  apply IH; lia.
Qed.

(** A larger budget does not change the result of a run that ended. *)
Lemma coprime_loop_fuel_mono T lim fuel fuel' visited ps :
  (fuel <= fuel')%nat -> coprime_loop T fuel lim visited ps <> OutOfFuel ->
  coprime_loop T fuel' lim visited ps = coprime_loop T fuel lim visited ps.
Proof.
  revert fuel' visited ps.
  induction fuel as [|fuel IH]; intros fuel' visited ps Hle; simpl; [done|].
  destruct fuel' as [|fuel']; [lia|]. simpl.
  destruct (visited <? Z.of_nat (length ps)); [|done].
  destruct (vget ps visited) as [cur| | |]; simpl; [|done..].
  destruct (add_pair T lim ps _ _) as [ps1| | |]; simpl; [|done..].
  destruct (add_pair T lim ps1 _ _) as [ps2| | |]; simpl; [|done..].
  destruct (add_pair T lim ps2 _ _) as [ps3| | |]; simpl; [|done..].
  apply IH. lia.
Qed.

Lemma add_pair_halted T lim ps x y : halted (add_pair T lim ps x y).
Proof. destruct (add_pair_result T lim ps x y) as [(ps' & -> & _)| ->]; done. Qed.

(** [coprime_pairs] ends for every limit, with the same result for every
    budget that is large enough. *)
Lemma coprime_pairs_halts T L :
  max_size <= 2 ^ 63 - 1 ->
  exists fuel, halted (coprime_pairs T fuel L) /\
    forall fuel', (fuel <= fuel')%nat -> coprime_pairs T fuel' L = coprime_pairs T fuel L.
Proof.
  intros Hmax. remember (S (Z.to_nat (Z.max 0 max_size + 1))) as fuel eqn:Hfuel.
  exists fuel. unfold coprime_pairs.
  destruct (L <=? 0); [done|].
  destruct (numeric_cast uint64_t L) as [lim| | |] eqn:Hcast; simpl; [|done| |];
    [|unfold numeric_cast in Hcast; by destruct (in_rangeb _ _)..].
  destruct (add_pair_result T lim [] 2 1) as [(ps0 & -> & Hlen0)| ->]; [simpl|done].
  destruct (add_pair_result T lim ps0 3 1) as [(ps1 & -> & Hlen1)| ->]; [simpl|done].
  simpl in Hlen0.
  pose proof (coprime_loop_halts T lim fuel 0 ps1 Hmax ltac:(lia) ltac:(lia) ltac:(lia))
    as Hhalt.
  assert (Hmono : forall fuel', (fuel <= fuel')%nat ->
    coprime_loop T fuel' lim 0 ps1 = coprime_loop T fuel lim 0 ps1).
  { intros fuel' Hle. apply coprime_loop_fuel_mono; [done|].
    intros Heq. by rewrite Heq in Hhalt. }
  clear Hfuel. split.
  - destruct (coprime_loop T fuel lim 0 ps1) as [tree| | |]; simpl; [|done..].
    pose proof (add_pair_halted T lim tree 1 0) as Hh.
    destruct (add_pair T lim tree 1 0) as [ps2| | |]; simpl; [|done..].
    apply add_pair_halted.
  - intros fuel' Hle. by rewrite Hmono.
Qed.

(** A run of the relation exists while no child overflows. *)
Lemma bfs_exists L n visited ps :
  3 * L < 2 ^ 64 -> 0 <= L -> bfs_inv L visited ps ->
  (L + 1) * (L + 1) - visited <= Z.of_nat n ->
  exists final, bfs L visited ps final.
Proof.
  intros HL HL0. revert visited ps.
  induction n as [|n IH]; intros visited ps Hinv Hn.
  - exists ps. apply bfs_done.
    pose proof Hinv as (Hv & Hnd & Hnodes & _).
    pose proof (NoDup_box_length L ps HL0 Hnd) as Hcount.
    assert (Z.of_nat (length ps) <= (L + 1) * (L + 1)); [|lia].
    apply Hcount, Forall_forall. intros p [[? _] ?]%Hnodes. unfold in_box. lia.
  - destruct (Z_le_gt_dec (Z.of_nat (length ps)) visited) as [Hge|Hlt].
    { exists ps. by apply bfs_done. }
    pose proof Hinv as (Hv & _).
    destruct (lookup_lt_is_Some_2 ps (Z.to_nat visited)) as [p Hp]; [lia|].
    destruct (IH (visited + 1) (ps ++ accepted L (children64 p))) as [final Hfinal].
    + apply bfs_inv_step; [done|done|lia|done].
    + lia.
    + exists final. eapply bfs_step; [lia|done..].
Qed.

(** A run of the relation whose final list fits a vector is a run of the
    loop of the model, for every budget that is large enough. *)
Lemma bfs_coprime_loop T L visited ps final :
  in_range T L -> L < 2 ^ 64 -> max_size <= 2 ^ 63 - 1 ->
  bfs L visited ps final -> Forall (in_box L) ps ->
  Z.of_nat (length final) <= max_size ->
  exists fuel, forall fuel', (fuel <= fuel')%nat ->
    coprime_loop T fuel' L visited ps = Ok final.
Proof.
  intros HT HL Hmax.
  induction 1 as [visited ps Hlen|visited ps p final Hv Hp Hrun IH]; intros Hbox Hfit.
  - exists 1%nat. intros [|fuel'] Hle; [lia|]. simpl.
    by destruct (Z.ltb_spec visited (Z.of_nat (length ps))); [lia|].
  - assert (Hpbox : in_box L p).
    { rewrite Forall_forall in Hbox. apply Hbox. by eapply list_elem_of_lookup_2. }
    pose proof (lookup_lt_Some _ _ _ Hp) as Hlt.
    pose proof (bfs_prefix _ _ _ _ Hrun) as Hpre. apply prefix_length in Hpre.
    destruct IH as [fuel IH]; [|done|].
    { apply Forall_app. split; [done|]. by apply accepted_in_box. }
    exists (S fuel). intros [|fuel'] Hle; [lia|]. simpl.
    destruct (Z.ltb_spec visited (Z.of_nat (length ps))); [|lia].
    rewrite (vget_lookup ps visited p) by done. simpl.
    pose proof Hpbox as [Hx Hy].
    rewrite !(u64_small p.1), !(u64_small p.2) by lia.
    assert (Hroom : Z.of_nat (length (ps ++ accepted L (children64 p))) <= max_size) by lia.
    pose proof (loop_body_fits T L ps p HT Hpbox Hroom) as Hbody.
    inv_bind Hbody. rewrite Hstep. simpl. rewrite Hstep0. simpl. rewrite Hbody. simpl.
    rewrite length_app in Hpre. rewrite u64_small by lia. apply IH. lia.
Qed.

(** The call returns when the coprime pairs up to [L] fit a vector. *)
Lemma coprime_pairs_returns_fits T L :
  in_range T L -> max_size <= 2 ^ 63 - 1 -> 1 <= L -> coprime_count L <= max_size ->
  returns (fun fuel => coprime_pairs T fuel L).
Proof.
  intros HT Hmax HL Hcap.
  assert (HL3 : 3 * L < 2 ^ 64).
  { destruct (Z_lt_le_dec L 2); [lia|]. pose proof (coprime_count_lower L). lia. }
  destruct (bfs_exists L (Z.to_nat ((L + 1) * (L + 1))) 0 (accepted L seeds))
    as [tree Hbfs]; [lia|lia|apply bfs_inv_seeds|lia|].
  destruct (bfs_invariant L (bfs_inv L) 0 (accepted L seeds) tree) as (v & Hv & Hinv);
    [|done|apply bfs_inv_seeds|].
  { intros visited ps p. apply bfs_inv_step. lia. }
  destruct Hinv as (_ & Hnd & Hnodes & _).
  assert (Hcount : Z.of_nat (length (tree ++ boundary)) <= coprime_count L).
  { apply coprime_count_le.
    - apply NoDup_app. split; [done|]. split; [|apply NoDup_boundary].
      intros p [[Hp _] _]%Hnodes. unfold boundary. rewrite !elem_of_cons, elem_of_nil.
      intros [->|[->|[]]]; simpl in Hp; lia.
    - intros x y Hp. apply (coprime_cases L x y); [done|].
      apply elem_of_app in Hp as [Hp%Hnodes|Hp]; [by left|right].
      revert Hp. unfold boundary. rewrite !elem_of_cons, elem_of_nil. tauto. }
  rewrite length_app in Hcount. simpl in Hcount.
  pose proof (bfs_prefix _ _ _ _ Hbfs) as Hpre. apply prefix_length in Hpre.
  destruct (bfs_coprime_loop T L 0 (accepted L seeds) tree HT ltac:(lia) Hmax Hbfs)
    as [fuel Hloop]; [|lia|].
  { apply Forall_forall. intros p [HpL Hp%tree_node_seeds]%elem_of_accepted.
    destruct Hp as [? _]. unfold in_box. lia. }
  exists fuel, (tree ++ boundary). intros fuel' Hle. unfold coprime_pairs.
  destruct (Z.leb_spec L 0); [lia|].
  rewrite numeric_cast_in_range by (apply in_range_u64; lia). simpl.
  rewrite accepted_seeds in *. rewrite length_app in Hpre.
  rewrite (add_pair_fits T L [] 2 1) by (done || simpl; lia). simpl.
  rewrite (add_pair_fits T L _ 3 1) by (done || (try rewrite length_app); lia). simpl.
  rewrite Hloop by done. simpl.
  assert (Hacc : forall c : Z * Z, c.1 = 1 -> accepted L [c] = [c]).
  { intros c Hc. rewrite accepted_singleton. by rewrite decide_True by lia. }
  rewrite (add_pair_fits T L tree 1 0); [|done|lia|lia|].
  2:{ rewrite Hacc by done. rewrite length_app. simpl. lia. }
  simpl. rewrite (add_pair_fits T L _ 1 1); [|done|lia|lia|].
  2:{ rewrite !Hacc by done. rewrite !length_app. simpl. lia. }
  rewrite !Hacc by done. by rewrite <- (assoc_L (++)).
Qed.

Lemma coprime_pairs_returns_empty T L :
  L <= 0 -> returns (fun fuel => coprime_pairs T fuel L).
Proof.
  intros HL. exists 0%nat, []. intros fuel' _. unfold coprime_pairs.
  by destruct (Z.leb_spec L 0); [|lia].
Qed.

(** The call returns exactly when the limit is not positive or the coprime
    pairs up to it fit a vector. *)
Lemma coprime_pairs_returns_iff T L :
  in_range T L -> max_size <= 2 ^ 63 - 1 ->
  returns (fun fuel => coprime_pairs T fuel L) <-> L <= 0 \/ coprime_count L <= max_size.
Proof.
  intros HT Hmax. destruct (Z_le_gt_dec L 0) as [HL|HL].
  { split; [by left|]. intros _. by apply coprime_pairs_returns_empty. }
  split.
  - intros (fuel & ps & Hrun). right.
    apply (coprime_pairs_length T fuel L ps); [done|done| |lia]. by apply Hrun.
  - intros [?|Hcap]; [lia|]. apply coprime_pairs_returns_fits; [done|done|lia|done].
Qed.

(** Up to [(L + 1) ^ 2 <= max_size] the call returns. *)
Lemma coprime_pairs_returns T L :
  in_range T L -> max_size <= 2 ^ 63 - 1 -> (L + 1) * (L + 1) <= max_size ->
  returns (fun fuel => coprime_pairs T fuel L).
Proof.
  intros HT Hmax Hcap. apply coprime_pairs_returns_iff; [done..|].
  destruct (Z_le_gt_dec L 0) as [HL|HL]; [by left|right].
  pose proof (coprime_count_square L). lia.
Qed.

(** The loop and the call raise nothing but the [std::length_error] of a
    full vector. *)
Lemma add_pair_throw T lim ps x y e : add_pair T lim ps x y = Throw e -> e = LengthError.
Proof.
  destruct (add_pair_result T lim ps x y) as [(ps' & -> & _)| ->]; [done|by intros [= <-]].
Qed.

Lemma coprime_loop_throw T lim fuel visited ps e :
  coprime_loop T fuel lim visited ps = Throw e -> e = LengthError.
Proof.
  revert visited ps. induction fuel as [|fuel IH]; intros visited ps; simpl; [done|].
  destruct (visited <? Z.of_nat (length ps)); [|done].
  intros [Hget|(cur & _ & Hrest)]%bind_Throw; [by apply vget_no_throw in Hget|].
  apply bind_Throw in Hrest as [Hadd|(ps1 & _ & Hrest)]; [by apply add_pair_throw in Hadd|].
  apply bind_Throw in Hrest as [Hadd|(ps2 & _ & Hrest)]; [by apply add_pair_throw in Hadd|].
  apply bind_Throw in Hrest as [Hadd|(ps3 & _ & Hrest)]; [by apply add_pair_throw in Hadd|].
  by apply IH in Hrest.
Qed.

Lemma coprime_pairs_throw T fuel L e :
  L < 2 ^ 64 -> coprime_pairs T fuel L = Throw e -> e = LengthError.
Proof.
  intros HL. unfold coprime_pairs. destruct (Z.leb_spec L 0); [done|].
  rewrite numeric_cast_in_range by (apply in_range_u64; lia). simpl.
  intros [Hadd|(ps0 & _ & Hrest)]%bind_Throw; [by apply add_pair_throw in Hadd|].
  apply bind_Throw in Hrest as [Hadd|(ps1 & _ & Hrest)]; [by apply add_pair_throw in Hadd|].
  apply bind_Throw in Hrest as [Hloop|(tree & _ & Hrest)];
    [by apply coprime_loop_throw in Hloop|].
  apply bind_Throw in Hrest as [Hadd|(ps2 & _ & Hrest)]; [by apply add_pair_throw in Hadd|].
  by apply add_pair_throw in Hrest.
Qed.

(** When the coprime pairs up to [L] do not fit a vector, the call ends
    with [std::length_error]. *)
Lemma coprime_pairs_overfull T L :
  in_range T L -> max_size <= 2 ^ 63 - 1 -> 1 <= L < 2 ^ 64 ->
  max_size < coprime_count L ->
  exists fuel, forall fuel', (fuel <= fuel')%nat ->
    coprime_pairs T fuel' L = Throw LengthError.
Proof.
  intros HT Hmax HL Hover.
  destruct (coprime_pairs_halts T L Hmax) as (fuel & Hhalt & Hstable).
  exists fuel. intros fuel' Hle. rewrite Hstable by done.
  destruct (coprime_pairs T fuel L) as [ps|e| |] eqn:Hrun; [| |done..].
  - destruct (coprime_pairs_length T fuel L ps HT Hmax Hrun) as [_ Hfit]. lia.
  - f_equal. apply (coprime_pairs_throw T fuel L); [lia|done].
Qed.

(** In a returned sequence every pair but the roots and the boundary pairs
    is a child of an earlier pair, whose first component is smaller. *)
Lemma coprime_pairs_parents T fuel L ps :
  in_range T L -> max_size <= 2 ^ 63 - 1 -> coprime_pairs T fuel L = Ok ps ->
  forall j p, ps !! j = Some p ->
    p.1 <= L /\
    (p ∈ seeds \/ p ∈ boundary \/
     exists i q, (i < j)%nat /\ ps !! i = Some q /\ p ∈ children q /\ q.1 < p.1).
Proof.
  intros HT Hmax Hrun j p Hp.
  destruct (Z_le_gt_dec L 0) as [HL|HL].
  { unfold coprime_pairs in Hrun. destruct (Z.leb_spec L 0); [|lia].
    injection Hrun as <-. done. }
  destruct (coprime_pairs_Ok T fuel L ps HT ltac:(lia) Hrun)
    as (tree & HL64 & Hlen0 & Hloop & -> & _).
  destruct (tree_run_spec T fuel L tree HT ltac:(lia) Hmax Hlen0 Hloop)
    as (_ & _ & (_ & _ & Hnodes & Hanc) & _).
  apply lookup_app_Some in Hp as [Hp|[_ Hp]].
  - pose proof (list_elem_of_lookup_2 _ _ _ Hp) as [Hnode HpL]%Hnodes.
    split; [done|].
    destruct (decide (p ∈ seeds)) as [Hseed|Hseed]; [by left|].
    destruct (Hanc j p Hp) as [?|(i & Hij & _ & Hpar)]; [done|].
    destruct (parent_tree_node p Hnode Hseed) as (_ & Hlt & Hchild).
    right. right. exists i, (parent p). split; [done|]. split; [|done].
    by apply lookup_app_l_Some.
  - apply list_elem_of_lookup_2 in Hp. split; [|by right; left].
    revert Hp. rewrite !elem_of_cons, elem_of_nil. intros [->|[->|[]]]; simpl; lia.
Qed.

End coprime_termination.

(** C2.  For every limit [L] of the type [T] (with vectors of at most
    [PTRDIFF_MAX] elements): [coprime_pairs (L)] is empty for [L <= 0]; a
    sequence that it returns has no repeats, holds exactly the pairs
    [(x, y)] with [0 <= y <= x <= L] and [gcd (x, y) = 1], among them
    [(1, 0)] and [(1, 1)], and is as long as the brute-force scan of these
    pairs; and the call does return such a sequence, the same for every
    budget that is large enough, exactly when [L <= 0] or the coprime pairs
    up to [L] fit a vector, as they do whenever [(L + 1) ^ 2] pairs fit. *)
Theorem coprime_pairs_spec `{vector_impl} (T : int_type) (fuel : nat) (L : Z)
    (ps : list (Z * Z)) :
  in_range T L -> max_size <= 2 ^ 63 - 1 ->
  (L <= 0 -> coprime_pairs T fuel L = Ok []) /\
  (coprime_pairs T fuel L = Ok ps ->
     NoDup ps /\
     (forall x y, (x, y) ∈ ps <-> 0 <= y <= x /\ x <= L /\ Z.gcd x y = 1) /\
     Z.of_nat (length ps) = coprime_count L) /\
  (returns (fun fuel => coprime_pairs T fuel L) <->
     L <= 0 \/ coprime_count L <= max_size) /\
  ((L + 1) * (L + 1) <= max_size -> returns (fun fuel => coprime_pairs T fuel L)).
Proof.
  intros HT Hmax. split; [|split; [|split]].
  - intros HL. unfold coprime_pairs. by destruct (Z.leb_spec L 0); [|lia].
  - intros Hrun. destruct (coprime_pairs_sound T fuel L ps HT Hmax Hrun) as [Hnd Hin].
    split; [done|]. split; [done|]. by apply coprime_count_unique.
  - by apply coprime_pairs_returns_iff.
  - by apply coprime_pairs_returns.
Qed.

Lemma coprime_pairs_spec_witness :
  exists ps, @coprime_pairs lp64 int32_t 64 7 = Ok ps /\
  (7 <= 0 -> @coprime_pairs lp64 int32_t 64 7 = Ok []) /\
  (@coprime_pairs lp64 int32_t 64 7 = Ok ps ->
     NoDup ps /\
     (forall x y, (x, y) ∈ ps <-> 0 <= y <= x /\ x <= 7 /\ Z.gcd x y = 1) /\
     Z.of_nat (length ps) = coprime_count 7) /\
  (returns (fun fuel => @coprime_pairs lp64 int32_t fuel 7) <->
     7 <= 0 \/ coprime_count 7 <= @max_size lp64) /\
  ((7 + 1) * (7 + 1) <= @max_size lp64 ->
     returns (fun fuel => @coprime_pairs lp64 int32_t fuel 7)).
Proof.
  eexists. split; [vm_compute; reflexivity|].
  apply (coprime_pairs_spec (H := lp64) int32_t 64 7).
  - unfold in_range, it_min, it_max. simpl. lia.
  - simpl. lia.
Defined.

(** C10, as the code has it.  For every limit [L] of the type [T] (with
    vectors of at most [PTRDIFF_MAX] elements) the call [coprime_pairs (L)]
    ends: some budget suffices, the call then ends by a return or by an
    exception, and every larger budget gives the same result, so the result
    is a function of [L].  It ends by a return exactly when [L <= 0] or the
    coprime pairs up to [L] fit a vector, as they do whenever [(L + 1) ^ 2]
    pairs fit; when they do not fit, which is so whenever
    [2 L - 1 > max_size ()], it ends by the [std::length_error] of the
    full vector.  In a sequence returned every first component is at most
    [L], and every pair other than the two roots and the two boundary pairs
    is a child of an earlier pair with a strictly smaller first
    component. *)
Theorem coprime_pairs_terminates `{vector_impl} (T : int_type) (L : Z) :
  in_range T L -> max_size <= 2 ^ 63 - 1 ->
  (exists fuel, halted (coprime_pairs T fuel L) /\
     forall fuel', (fuel <= fuel')%nat ->
       coprime_pairs T fuel' L = coprime_pairs T fuel L) /\
  (returns (fun fuel => coprime_pairs T fuel L) <->
     L <= 0 \/ coprime_count L <= max_size) /\
  ((L + 1) * (L + 1) <= max_size -> returns (fun fuel => coprime_pairs T fuel L)) /\
  (1 <= L < 2 ^ 64 -> max_size < coprime_count L ->
     exists fuel, forall fuel', (fuel <= fuel')%nat ->
       coprime_pairs T fuel' L = Throw LengthError) /\
  (2 <= L -> max_size < 2 * L - 1 -> max_size < coprime_count L) /\
  (forall fuel ps, coprime_pairs T fuel L = Ok ps ->
     forall j p, ps !! j = Some p ->
       p.1 <= L /\
       (p ∈ seeds \/ p ∈ boundary \/
        exists i q, (i < j)%nat /\ ps !! i = Some q /\ p ∈ children q /\ q.1 < p.1)).
Proof.
  intros HT Hmax. split; [by apply coprime_pairs_halts|].
  split; [by apply coprime_pairs_returns_iff|].
  split; [by apply coprime_pairs_returns|].
  split; [by apply coprime_pairs_overfull|].
  split; [intros HL Hover; pose proof (coprime_count_lower L HL); lia|].
  intros fuel ps Hrun. by apply (coprime_pairs_parents T fuel L).
Qed.

Lemma coprime_pairs_terminates_witness :
  (exists fuel, halted (@coprime_pairs lp64 int32_t fuel 7) /\
     forall fuel', (fuel <= fuel')%nat ->
       @coprime_pairs lp64 int32_t fuel' 7 = @coprime_pairs lp64 int32_t fuel 7) /\
  (returns (fun fuel => @coprime_pairs lp64 int32_t fuel 7) <->
     7 <= 0 \/ coprime_count 7 <= @max_size lp64) /\
  ((7 + 1) * (7 + 1) <= @max_size lp64 ->
     returns (fun fuel => @coprime_pairs lp64 int32_t fuel 7)) /\
  (1 <= 7 < 2 ^ 64 -> @max_size lp64 < coprime_count 7 ->
     exists fuel, forall fuel', (fuel <= fuel')%nat ->
       @coprime_pairs lp64 int32_t fuel' 7 = Throw LengthError) /\
  (2 <= 7 -> @max_size lp64 < 2 * 7 - 1 -> @max_size lp64 < coprime_count 7) /\
  (forall fuel ps, @coprime_pairs lp64 int32_t fuel 7 = Ok ps ->
     forall j p, ps !! j = Some p ->
       p.1 <= 7 /\
       (p ∈ seeds \/ p ∈ boundary \/
        exists i q, (i < j)%nat /\ ps !! i = Some q /\ p ∈ children q /\ q.1 < p.1)).
Proof.
  apply (coprime_pairs_terminates (H := lp64) int32_t 7).
  - unfold in_range, it_min, it_max. simpl. lia.
  - simpl. lia.
Defined.

(** C10, as the specification has it, fails: [coprime_pairs<uint64_t>] at
    the limit [UINT64_MAX] accepts every child, the vector grows by three
    pairs at every turn of the loop, and the call ends by
    [std::length_error]; for no budget does it return. *)
Lemma coprime_pairs_terminates_counterexample :
  (exists fuel, forall fuel', (fuel <= fuel')%nat ->
     @coprime_pairs lp64 uint64_t fuel' (2 ^ 64 - 1) = Throw LengthError) /\
  (forall fuel ps, @coprime_pairs lp64 uint64_t fuel (2 ^ 64 - 1) <> Ok ps) /\
  ~ returns (fun fuel => @coprime_pairs lp64 uint64_t fuel (2 ^ 64 - 1)).
Proof.
  assert (HT : in_range uint64_t (2 ^ 64 - 1))
    by (unfold in_range, it_min, it_max; simpl; lia).
  assert (Hmax : @max_size lp64 <= 2 ^ 63 - 1) by (simpl; lia).
  assert (Hover : @max_size lp64 < coprime_count (2 ^ 64 - 1)).
  { pose proof (coprime_count_lower (2 ^ 64 - 1) ltac:(lia)). simpl. lia. }
  split; [|split].
  - apply (coprime_pairs_overfull (H := lp64)); [done|done|lia|done].
  - intros fuel ps Hrun.
    destruct (coprime_pairs_length (H := lp64) uint64_t fuel _ ps HT Hmax Hrun) as [_ Hfit].
    lia.
  - intros [?|Hfit]%(coprime_pairs_returns_iff (H := lp64)); [lia|lia|done|done].
Qed.

(** * Further properties of the code *)

(** ** [Sieve]: the limits that give a sieve, and what the sieve holds *)

Section sieve_more.

Context `{vector_impl}.

Lemma Sieve_Ok_limit fuel L s :
  max_size <= 2 ^ 63 - 1 -> Sieve.Sieve fuel L = Ok s -> L < 2 ^ 63.
Proof.
  intros Hmax Hrun. unfold Sieve.Sieve in Hrun. inv_bind Hrun.
  apply numeric_cast_Ok in Hstep as [-> HL0%in_range_u64].
  apply vector_new_Ok in Hstep0 as [Hcap ->].
  apply vset_Ok in Hstep1 as [_ ->]. apply vset_Ok in Hstep2 as [Hlen _].
  rewrite length_insert, length_replicate in Hlen.
  destruct (Z.eq_dec L (2 ^ 64 - 1)) as [->|];
    [change (u64 (2 ^ 64 - 1 + 1)) with 0 in Hlen; lia|].
  rewrite u64_small in Hcap by lia. lia.
Qed.

(** The query on finished flags, for every number up to the limit. *)
Lemma Sieve_query L s n :
  Sieve.num_limit_ s = L -> L < 2 ^ 63 -> sieve_done L (Sieve.is_prime_ s) -> n <= L ->
  exists b, Sieve.is_prime s n = Ok b /\ (b = true <-> 2 <= n /\ ~ small_divisor n).
Proof.
  intros Hlim HL Hdone Hn. unfold Sieve.is_prime. rewrite Hlim.
  destruct (Z.ltb_spec n 0) as [Hneg|Hpos].
  { exists false. split; [done|]. split; [done|lia]. }
  destruct (Z.gtb_spec n L); [lia|].
  destruct (sieve_done_lookup L _ n Hdone ltac:(lia)) as (b & Hb & Hspec).
  exists b. split; [|done]. rewrite u64_small by lia. apply vget_lookup; [lia|done].
Qed.

End sieve_more.

(** X1.  With vectors of at most [PTRDIFF_MAX] elements and a budget above
    [L + 1], [Sieve (L)] is constructed exactly for the limits [L >= 1]
    whose [L + 1] flags fit a vector; the sieve then reports [L] as its
    limit and holds [L + 1] flags; a negative limit fails in the
    conversion to [size_t]. *)
Theorem Sieve_domain `{vector_impl} (fuel : nat) (L : Z) :
  max_size <= 2 ^ 63 - 1 -> (Z.to_nat (L + 1) < fuel)%nat ->
  ((exists s, Sieve.Sieve fuel L = Ok s) <-> 1 <= L /\ L + 1 <= max_size) /\
  (forall s, Sieve.Sieve fuel L = Ok s ->
     Sieve.get_limit s = L /\ Z.of_nat (length (Sieve.is_prime_ s)) = L + 1) /\
  (L < 0 -> Sieve.Sieve fuel L = Throw CastError).
Proof.
  intros Hmax Hfuel. split; [|split].
  - split.
    + intros [s Hs]. pose proof (Sieve_Ok_limit fuel L s Hmax Hs) as HL.
      destruct (Sieve_Ok fuel L s Hs HL) as (_ & ? & ? & _). done.
    + intros [HL Hcap]. apply Sieve_constructs; [lia|done..].
  - intros s Hs. pose proof (Sieve_Ok_limit fuel L s Hmax Hs) as HL.
    destruct (Sieve_Ok fuel L s Hs HL) as (Hlim & _ & _ & [Hlen _]). done.
  - intros HL. unfold Sieve.Sieve, numeric_cast.
    destruct (in_rangeb size_t L) eqn:Hr; [|done].
    apply in_rangeb_spec, in_range_u64 in Hr. lia.
Qed.

Lemma Sieve_domain_witness :
  ((exists s, @Sieve.Sieve lp64 64 30 = Ok s) <-> 1 <= 30 /\ 30 + 1 <= @max_size lp64) /\
  (forall s, @Sieve.Sieve lp64 64 30 = Ok s ->
     Sieve.get_limit s = 30 /\ Z.of_nat (length (Sieve.is_prime_ s)) = 30 + 1) /\
  (30 < 0 -> @Sieve.Sieve lp64 64 30 = Throw CastError).
Proof.
  apply (Sieve_domain (H := lp64) 64 30).
  - simpl. lia.
  - lia.
Defined.

(** X2.  The answers of a sieve do not depend on its limit: two constructed
    sieves agree on every number up to the smaller limit. *)
Theorem Sieve_limit_independent `{vector_impl} (fuel fuel' : nat) (L L' : Z)
    (s s' : Sieve.t) (n : Z) :
  max_size <= 2 ^ 63 - 1 ->
  Sieve.Sieve fuel L = Ok s -> Sieve.Sieve fuel' L' = Ok s' -> n <= L -> n <= L' ->
  Sieve.is_prime s n = Sieve.is_prime s' n.
Proof.
  intros Hmax Hs Hs' Hn Hn'.
  pose proof (Sieve_Ok_limit fuel L s Hmax Hs) as HL.
  pose proof (Sieve_Ok_limit fuel' L' s' Hmax Hs') as HL'.
  destruct (Sieve_Ok fuel L s Hs HL) as (Hlim & _ & _ & Hdone).
  destruct (Sieve_Ok fuel' L' s' Hs' HL') as (Hlim' & _ & _ & Hdone').
  destruct (Sieve_query L s n Hlim HL Hdone Hn) as (b & -> & Hb).
  destruct (Sieve_query L' s' n Hlim' HL' Hdone' Hn') as (b' & -> & Hb').
  f_equal. destruct b, b'; try done.
  - assert (false = true) by (apply Hb', Hb; done). done.
  - assert (false = true) by (apply Hb, Hb'; done). done.
Qed.

Lemma Sieve_limit_independent_witness :
  exists s s', @Sieve.Sieve lp64 64 30 = Ok s /\ @Sieve.Sieve lp64 64 50 = Ok s' /\
    Sieve.is_prime s 29 = Sieve.is_prime s' 29.
Proof.
  do 2 eexists. split; [vm_compute; reflexivity|]. split; [vm_compute; reflexivity|].
  apply (Sieve_limit_independent (H := lp64) 64 64 30 50).
  - simpl. lia.
  - vm_compute. reflexivity.
  - vm_compute. reflexivity.
  - lia.
  - lia.
Defined.

(** ** The bounded test against the sieve, and its number of iterations *)

(** X3.  On every number that a type of at most 16 value bits holds and
    that is within the limit of a constructed [Sieve], the bounded
    [is_prime] (with a budget of 255 or more) and the query of the sieve
    give the same answer. *)
Theorem is_prime_agrees_with_Sieve `{vector_impl} (T : int_type) (fuel fuel' : nat)
    (L : Z) (s : Sieve.t) (number : Z) :
  max_size <= 2 ^ 63 - 1 -> it_digits T <= 16 -> in_range T number ->
  (255 <= fuel')%nat -> Sieve.Sieve fuel L = Ok s -> number <= L ->
  is_prime fuel' number = Sieve.is_prime s number.
Proof.
  intros Hmax HT [_ Hnum] Hfuel Hs Hn.
  assert (Hlt : number < 2 ^ 16).
  { unfold it_max in Hnum.
    assert (2 ^ it_digits T <= 2 ^ 16); [|lia].
    destruct (Z_lt_le_dec (it_digits T) 0).
    - rewrite Z.pow_neg_r by done. lia.
    - apply Z.pow_le_mono_r; lia. }
  pose proof (Sieve_Ok_limit fuel L s Hmax Hs) as HL.
  destruct (Sieve_Ok fuel L s Hs HL) as (Hlim & _ & _ & Hdone).
  destruct (Sieve_query L s number Hlim HL Hdone Hn) as (b & -> & Hb).
  unfold is_prime. destruct (Z.ltb_spec number 2) as [Hsmall|Hbig].
  - f_equal. destruct b; [|done]. destruct (proj1 Hb eq_refl). lia.
  - destruct (is_prime_loop_spec fuel' number 2) as (b' & -> & Hb');
      [lia|lia|lia|intros d ?; lia|lia|].
    f_equal. destruct b, b'; try done.
    + exfalso. destruct (proj1 Hb eq_refl) as [_ Hns]. apply Hns. by apply Hb'.
    + assert (false = true); [|done]. apply Hb. split; [done|].
      intros Hsd. by apply Hb' in Hsd.
Qed.

Lemma is_prime_agrees_with_Sieve_witness :
  exists s, @Sieve.Sieve lp64 64 30 = Ok s /\ is_prime 255 29 = Sieve.is_prime s 29.
Proof.
  eexists. split; [vm_compute; reflexivity|].
  apply (is_prime_agrees_with_Sieve (H := lp64) uint8_t 64 255 30).
  - simpl. lia.
  - simpl. lia.
  - unfold in_range, it_min, it_max. simpl. lia.
  - lia.
  - vm_compute. reflexivity.
  - lia.
Defined.

Section trial_division_budget.

(** The loop started at [i] answers within [sqrt number + 2 - i] tests of
    its condition. *)
Lemma is_prime_loop_budget fuel number i :
  2 <= i -> 2 <= number < 2 ^ 16 -> (i - 1) * (i - 1) <= number ->
  (forall d, 2 <= d < i -> ~ (d | number)) ->
  (Z.to_nat (Z.sqrt number + 2 - i) <= fuel)%nat ->
  exists b, is_prime_loop fuel number i = Ok b /\ (b = false <-> small_divisor number).
Proof.
  pose proof (Z.sqrt_spec number) as Hsqrt. pose proof (Z.sqrt_nonneg number) as Hs0.
  revert i. induction fuel as [|fuel IH]; intros i Hi Hn Hprev Hnd Hfuel.
  - exfalso. specialize (Hsqrt ltac:(lia)). simpl in Hsqrt. nia.
  - assert (i <= 256) by nia.
    simpl. rewrite (int_arith_ok (i * i)) by nia. simpl.
    destruct (Z.leb_spec (i * i) number) as [Hsq|Hsq].
    + destruct (Z.eqb_spec (Z.rem number i) 0) as [Hrem|Hrem].
      * exists false. split; [done|]. split; [|done]. intros _.
        exists i. repeat split; [done..|]. apply Z.rem_divide; [lia|done].
      * rewrite (int_arith_ok (i + 1)) by lia. simpl.
        apply IH; [lia|done|by replace (i + 1 - 1) with i by lia| |lia].
        intros d Hd Hdiv. destruct (Z.eq_dec d i) as [->|]; [|apply (Hnd d); [lia|done]].
        apply Hrem. apply Z.rem_divide; [lia|done].
    + exists true. split; [done|]. split; [done|].
      intros (d & Hd & Hdsq & Hdiv). exfalso.
      destruct (Z_lt_le_dec d i); [by apply (Hnd d)|nia].
Qed.

(** On a prime the loop needs all of them. *)
Lemma is_prime_loop_prime fuel number i :
  Z.prime number -> number < 2 ^ 16 -> 2 <= i ->
  (fuel < Z.to_nat (Z.sqrt number + 2 - i))%nat ->
  is_prime_loop fuel number i = OutOfFuel.
Proof.
  intros [Hn Hp] Hlt. pose proof (Z.sqrt_spec number ltac:(lia)) as Hsqrt. simpl in Hsqrt.
  revert i. induction fuel as [|fuel IH]; intros i Hi Hfuel; [done|].
  assert (Hi' : i <= Z.sqrt number) by lia.
  simpl. rewrite (int_arith_ok (i * i)) by nia. simpl.
  destruct (Z.leb_spec (i * i) number) as [Hsq|Hsq]; [|nia].
  destruct (Z.eqb_spec (Z.rem number i) 0) as [Hrem|Hrem].
  - exfalso. apply (Hp i); [nia|]. apply Z.rem_divide; [lia|done].
  - rewrite (int_arith_ok (i + 1)) by nia. simpl. apply IH; lia.
Qed.

End trial_division_budget.

(** X4.  For [2 <= number < 2 ^ 16] the bounded [is_prime] answers within
    [floor (sqrt number)] tests of the loop condition, without overflow of
    [i * i]; on a prime it needs exactly that many: a smaller budget runs
    out. *)
Theorem is_prime_iterations (number : Z) (fuel : nat) :
  2 <= number < 2 ^ 16 ->
  ((Z.to_nat (Z.sqrt number) <= fuel)%nat ->
     exists b, is_prime fuel number = Ok b /\ (b = true <-> Z.prime number)) /\
  (Z.prime number -> (fuel < Z.to_nat (Z.sqrt number))%nat ->
     is_prime fuel number = OutOfFuel).
Proof.
  intros Hn. unfold is_prime. destruct (Z.ltb_spec number 2); [lia|]. split.
  - intros Hfuel.
    destruct (is_prime_loop_budget fuel number 2) as (b & -> & Hb);
      [lia|done|lia|intros d ?; lia|lia|].
    exists b. split; [done|]. rewrite prime_iff_no_small_divisor by lia.
    destruct b.
    + split; [|done]. intros _ Hsd. by apply Hb in Hsd.
    + split; [done|]. intros Hns. exfalso. by apply Hns, Hb.
  - intros Hp Hfuel. apply is_prime_loop_prime; [done|lia|lia|lia].
Qed.

Lemma is_prime_iterations_witness :
  ((Z.to_nat (Z.sqrt 9973) <= 99)%nat ->
     exists b, is_prime 99 9973 = Ok b /\ (b = true <-> Z.prime 9973)) /\
  (Z.prime 9973 -> (99 < Z.to_nat (Z.sqrt 9973))%nat ->
     is_prime 99 9973 = OutOfFuel).
Proof. apply (is_prime_iterations 9973 99). lia. Defined.

(** ** [EulerSieve]: the limits that give a sieve *)

Section euler_more.

Context `{vector_impl}.
Implicit Types (T : int_type) (L n : Z) (s : EulerSieve.t).

(** The limits 0 and 1 give a sieve without a turn of the loop. *)
Lemma EulerSieve_tiny T fuel L :
  in_range T L -> 0 <= L < 2 -> L + 1 <= max_size -> (0 < fuel)%nat ->
  exists s, EulerSieve.EulerSieve T fuel L = Ok s.
Proof.
  intros HT HL Hcap Hfuel. rewrite (EulerSieve_failures T fuel L HT).
  assert (Hr : in_rangeb size_t L = true) by (apply in_rangeb_spec, in_range_u64; lia).
  rewrite Hr. simpl. rewrite u64_small by lia.
  destruct (Z.leb_spec (L + 1) max_size); [|lia]. simpl.
  destruct (Z.leb_spec (2 ^ 32) L); [lia|].
  destruct fuel as [|fuel]; [lia|]. simpl.
  destruct (Z.leb_spec 2 L); [lia|]. simpl. by eexists.
Qed.

Lemma EulerSieve_Ok_capacity T fuel L s :
  in_range T L -> EulerSieve.EulerSieve T fuel L = Ok s -> L + 1 <= max_size.
Proof.
  intros HT Hrun. pose proof (EulerSieve_Ok T fuel L s HT Hrun) as (_ & HL & _).
  unfold EulerSieve.EulerSieve in Hrun. inv_bind Hrun.
  apply numeric_cast_Ok in Hstep as [-> _].
  apply vector_new_Ok in Hstep0 as [Hcap _]. rewrite u64_small in Hcap by lia. done.
Qed.

(** The guard lets every limit of a type of at most 32 bits through. *)
Lemma check_overflow_narrow T v :
  0 <= it_digits T -> it_width T <= 32 -> EulerSieve.check_overflow T v = Ok ().
Proof.
  intros Hd Hw. unfold EulerSieve.check_overflow.
  assert (Hwd : 0 <= it_width T) by (unfold it_width; destruct (it_signed T); lia).
  pose proof (wrap_range (make_unsigned T) v Hwd) as [Hlo Hhi].
  unfold it_min, it_max in Hlo, Hhi. simpl in Hlo, Hhi.
  assert (H32 : 2 ^ it_width T <= 2 ^ 32) by (apply Z.pow_le_mono_r; lia).
  set (w := wrap (make_unsigned T) v) in *.
  pose proof (bit_width_le w 32 ltac:(lia) ltac:(lia)) as Hbw.
  pose proof (bit_width_range w ltac:(lia)) as Hbr.
  rewrite u64_small by lia. change (it_digits uint64_t) with 64.
  destruct (Z.gtb_spec (bit_width w * 2) 64); [lia|done].
Qed.

End euler_more.

(** X5.  With a budget above [L], [EulerSieve (L)] is constructed exactly
    for the limits [0 <= L < 2 ^ 32] whose [L + 1] entries fit a vector,
    except a limit [L >= 2] that is the largest value of [T]: there [++num]
    cannot pass the limit and, whatever the budget, no sieve results.  A
    constructed sieve reports [L] as its limit. *)
Theorem EulerSieve_domain `{vector_impl} (T : int_type) (fuel : nat) (L : Z) :
  in_range T L -> (Z.to_nat L < fuel)%nat ->
  ((exists s, EulerSieve.EulerSieve T fuel L = Ok s) <->
     0 <= L < 2 ^ 32 /\ L + 1 <= max_size /\ ~ (2 <= L /\ L = it_max T)) /\
  (2 <= L -> L = it_max T ->
     forall fuel' s, EulerSieve.EulerSieve T fuel' L <> Ok s) /\
  (forall s, EulerSieve.EulerSieve T fuel L = Ok s -> EulerSieve.get_limit s = L).
Proof.
  intros HT Hfuel. split; [|split].
  - split.
    + intros [s Hs]. pose proof (EulerSieve_Ok T fuel L s HT Hs) as (_ & HL & _).
      split; [done|]. split; [by eapply EulerSieve_Ok_capacity|].
      intros [HL2 Hmax]. by apply (EulerSieve_at_max T fuel L s).
    + intros (HL & Hcap & Hmax).
      destruct (Z_lt_le_dec L 2) as [Hsmall|Hbig].
      * apply EulerSieve_tiny; [done|lia|done|lia].
      * apply EulerSieve_constructs; [done|done| |done|done].
        destruct HT as [_ HT]. lia.
  - intros HL Hmax fuel' s. by apply EulerSieve_at_max.
  - intros s Hs. by destruct (EulerSieve_Ok T fuel L s HT Hs) as (Hlim & _).
Qed.

Lemma EulerSieve_domain_witness :
  ((exists s, @EulerSieve.EulerSieve lp64 uint8_t 256 255 = Ok s) <->
     0 <= 255 < 2 ^ 32 /\ 255 + 1 <= @max_size lp64 /\ ~ (2 <= 255 /\ 255 = it_max uint8_t)) /\
  (2 <= 255 -> 255 = it_max uint8_t ->
     forall fuel' s, @EulerSieve.EulerSieve lp64 uint8_t fuel' 255 <> Ok s) /\
  (forall s, @EulerSieve.EulerSieve lp64 uint8_t 256 255 = Ok s ->
     EulerSieve.get_limit s = 255).
Proof.
  apply (EulerSieve_domain (H := lp64) uint8_t 256 255).
  - unfold in_range, it_min, it_max. simpl. lia.
  - lia.
Defined.

(** X6.  For a type of at most 32 bits the overflow guard lets every limit
    through, so [EulerSieve] never raises [OverflowError]. *)
Theorem EulerSieve_narrow_no_overflow `{vector_impl} (T : int_type) (fuel : nat) (L : Z) :
  0 <= it_digits T -> it_width T <= 32 ->
  EulerSieve.check_overflow T L = Ok () /\
  EulerSieve.EulerSieve T fuel L <> Throw OverflowError.
Proof.
  intros Hd Hw. pose proof (check_overflow_narrow T L Hd Hw) as Hcheck.
  split; [done|]. unfold EulerSieve.EulerSieve. intros Hrun.
  apply bind_Throw in Hrun as [Hcast|(n & _ & Hrun)].
  { unfold numeric_cast in Hcast. by destruct (in_rangeb size_t L). }
  apply bind_Throw in Hrun as [Hnew|(mpf & _ & Hrun)].
  { unfold vector_new in Hnew. by destruct (_ <=? _). }
  rewrite Hcheck in Hrun. simpl in Hrun.
  apply bind_Throw in Hrun as [Hloop|(st & _ & ?)]; [|done].
  by apply sieve_loop_throw in Hloop.
Qed.

Lemma EulerSieve_narrow_no_overflow_witness :
  EulerSieve.check_overflow uint32_t (2 ^ 32 - 1) = Ok () /\
  @EulerSieve.EulerSieve lp64 uint32_t 0 (2 ^ 32 - 1) <> Throw OverflowError.
Proof.
  apply (EulerSieve_narrow_no_overflow (H := lp64) uint32_t 0 (2 ^ 32 - 1)).
  - simpl. lia.
  - unfold it_width. simpl. lia.
Defined.

(** ** [EulerSieve]: how the queries compose *)

Section lpf_more.

Implicit Types (a b n p : Z).

Lemma lpf_product a b : 2 <= a -> 2 <= b -> lpf (a * b) = Z.min (lpf a) (lpf b).
Proof.
  intros Ha Hb.
  pose proof (lpf_range a Ha). pose proof (lpf_range b Hb).
  assert (Hab : 2 <= a * b) by nia.
  assert (Hla : lpf (a * b) <= lpf a).
  { apply lpf_least; [done|lia|]. etrans; [by apply lpf_divide|]. exists b. lia. }
  assert (Hlb : lpf (a * b) <= lpf b).
  { apply lpf_least; [done|lia|]. etrans; [by apply lpf_divide|]. by exists a. }
  pose proof (lpf_prime (a * b) Hab) as Hp. pose proof (Z.prime_ge_2 _ Hp).
  pose proof (lpf_divide (a * b) Hab) as Hdiv.
  apply (Z.divide_prime_mul _ _ _ Hp) in Hdiv as [Hd|Hd].
  - pose proof (lpf_least a (lpf (a * b)) Ha H1 Hd). lia.
  - pose proof (lpf_least b (lpf (a * b)) Hb H1 Hd). lia.
Qed.

Lemma primes_between_app a b c :
  a <= b + 1 -> b <= c -> primes_between a c = primes_between a b ++ primes_between (b + 1) c.
Proof.
  intros Hab Hbc. unfold primes_between.
  replace (c - a + 1) with ((b - a + 1) + (c - (b + 1) + 1)) by lia.
  rewrite seqZ_app by lia. rewrite filter_app. do 3 f_equal. lia.
Qed.

End lpf_more.

(** X7.  In a constructed sieve, for [2 <= n <= L] with [p] the answer of
    [min_prime_factor (n)]: [n = p * (n / p)]; either [p = n] or
    [p * p <= n]; and when the cofactor [n / p] is at least 2 it is within
    the limit and its own answer is at least [p], so repeated queries list
    the prime factors of [n] in ascending order. *)
Theorem min_prime_factor_cofactor `{vector_impl} (T : int_type) (fuel : nat)
    (L : Z) (s : EulerSieve.t) (n : Z) :
  in_range T L -> EulerSieve.EulerSieve T fuel L = Ok s -> 2 <= n <= L ->
  exists p, EulerSieve.min_prime_factor T s n = Ok p /\
    n = p * (n / p) /\ 1 <= n / p <= L /\ (p = n \/ p * p <= n) /\
    (2 <= n / p ->
       exists q, EulerSieve.min_prime_factor T s (n / p) = Ok q /\ p <= q).
Proof.
  intros HT Hrun Hn. pose proof (EulerSieve_Ok T fuel L s HT Hrun) as Hbuilt.
  assert (Hquery : forall m, 2 <= m <= L -> EulerSieve.min_prime_factor T s m = Ok (lpf m)).
  { intros m Hm. rewrite (min_prime_factor_cases T L s m);
      [|done|by apply (in_range_nonneg T L); [|lia]|done].
    rewrite Z.abs_eq by lia. destruct (Z.leb_spec m 1); [lia|].
    by destruct (Z.gtb_spec m L); [lia|]. }
  exists (lpf n). split; [by apply Hquery|].
  destruct (lpf_cofactor n ltac:(lia)) as (Hmul & Hc & Hcomp).
  pose proof (lpf_range n ltac:(lia)) as Hr.
  split; [done|]. split; [nia|]. split.
  - destruct (Z.eq_dec (lpf n) n) as [|Hne]; [by left|]. right.
    destruct (Hcomp Hne) as [Hc2 Hle].
    pose proof (lpf_range (n / lpf n) ltac:(lia)). nia.
  - intros Hc2. exists (lpf (n / lpf n)).
    assert (Hne : lpf n <> n) by (intros Heq; rewrite Heq, Z.div_same in Hc2; lia).
    destruct (Hcomp Hne) as [Hcn Hle]. split; [|done]. apply Hquery. lia.
Qed.

Lemma min_prime_factor_cofactor_witness :
  exists s, @EulerSieve.EulerSieve lp64 int32_t 64 30 = Ok s /\
  exists p, EulerSieve.min_prime_factor int32_t s 30 = Ok p /\
    30 = p * (30 / p) /\ 1 <= 30 / p <= 30 /\ (p = 30 \/ p * p <= 30) /\
    (2 <= 30 / p ->
       exists q, EulerSieve.min_prime_factor int32_t s (30 / p) = Ok q /\ p <= q).
Proof.
  eexists. split; [vm_compute; reflexivity|].
  apply (min_prime_factor_cofactor (H := lp64) int32_t 64 30 _ 30).
  - unfold in_range, it_min, it_max. simpl. lia.
  - vm_compute. reflexivity.
  - lia.
Defined.

(** X8.  In a constructed sieve the answer for a product [a * b <= L] of
    two numbers from 2 on is the smaller of the answers for [a] and [b]. *)
Theorem min_prime_factor_product `{vector_impl} (T : int_type) (fuel : nat)
    (L : Z) (s : EulerSieve.t) (a b : Z) :
  in_range T L -> EulerSieve.EulerSieve T fuel L = Ok s ->
  2 <= a -> 2 <= b -> a * b <= L ->
  exists p q, EulerSieve.min_prime_factor T s a = Ok p /\
    EulerSieve.min_prime_factor T s b = Ok q /\
    EulerSieve.min_prime_factor T s (a * b) = Ok (Z.min p q).
Proof.
  intros HT Hrun Ha Hb Hab. pose proof (EulerSieve_Ok T fuel L s HT Hrun) as Hbuilt.
  assert (Hquery : forall m, 2 <= m <= L -> EulerSieve.min_prime_factor T s m = Ok (lpf m)).
  { intros m Hm. rewrite (min_prime_factor_cases T L s m);
      [|done|by apply (in_range_nonneg T L); [|lia]|done].
    rewrite Z.abs_eq by lia. destruct (Z.leb_spec m 1); [lia|].
    by destruct (Z.gtb_spec m L); [lia|]. }
  exists (lpf a), (lpf b). rewrite !Hquery by nia. by rewrite lpf_product.
Qed.

Lemma min_prime_factor_product_witness :
  exists s, @EulerSieve.EulerSieve lp64 int32_t 64 40 = Ok s /\
  exists p q, EulerSieve.min_prime_factor int32_t s 5 = Ok p /\
    EulerSieve.min_prime_factor int32_t s 6 = Ok q /\
    EulerSieve.min_prime_factor int32_t s (5 * 6) = Ok (Z.min p q).
Proof.
  eexists. split; [vm_compute; reflexivity|].
  apply (min_prime_factor_product (H := lp64) int32_t 64 40 _ 5 6).
  - unfold in_range, it_min, it_max. simpl. lia.
  - vm_compute. reflexivity.
  - lia.
  - lia.
  - lia.
Defined.

(** X9.  Every answer of [min_prime_factor] on a constructed sieve is an
    element of [primes ()], and is its own answer. *)
Theorem min_prime_factor_in_primes `{vector_impl} (T : int_type) (fuel : nat)
    (L : Z) (s : EulerSieve.t) (n p : Z) :
  in_range T L -> in_range T n -> EulerSieve.EulerSieve T fuel L = Ok s ->
  EulerSieve.min_prime_factor T s n = Ok p ->
  p ∈ EulerSieve.primes s /\ EulerSieve.min_prime_factor T s p = Ok p.
Proof.
  intros HT Hn Hrun Hquery. pose proof (EulerSieve_Ok T fuel L s HT Hrun) as Hbuilt.
  pose proof Hbuilt as (_ & HL & _ & _ & Hprimes).
  rewrite (min_prime_factor_cases T L s n) in Hquery by done.
  destruct (Z.leb_spec (Z.abs n) 1); [done|]. destruct (Z.gtb_spec (Z.abs n) L); [done|].
  injection Hquery as <-.
  pose proof (lpf_range (Z.abs n) ltac:(lia)) as Hr.
  pose proof (lpf_prime (Z.abs n) ltac:(lia)) as Hp.
  split.
  - unfold EulerSieve.primes. rewrite Hprimes. apply elem_of_primes_between; [lia|].
    split; [lia|done].
  - rewrite (min_prime_factor_cases T L s (lpf (Z.abs n)));
      [|done|by apply (in_range_nonneg T L); [|lia]|done].
    rewrite Z.abs_eq by lia.
    destruct (Z.leb_spec (lpf (Z.abs n)) 1); [lia|].
    destruct (Z.gtb_spec (lpf (Z.abs n)) L); [lia|].
    f_equal. by apply lpf_of_prime.
Qed.

Lemma min_prime_factor_in_primes_witness :
  exists s, @EulerSieve.EulerSieve lp64 int8_t 64 30 = Ok s /\
    3 ∈ EulerSieve.primes s /\ EulerSieve.min_prime_factor int8_t s 3 = Ok 3.
Proof.
  eexists. split; [vm_compute; reflexivity|].
  apply (min_prime_factor_in_primes (H := lp64) int8_t 64 30 _ (-21) 3).
  - unfold in_range, it_min, it_max. simpl. lia.
  - unfold in_range, it_min, it_max. simpl. lia.
  - vm_compute. reflexivity.
  - vm_compute. reflexivity.
Defined.

(** X10.  A sieve of a larger limit extends a sieve of a smaller one: the
    primes of the smaller are a prefix of the primes of the larger, and on
    every number whose absolute value is within the smaller limit the two
    give the same answer or the same error. *)
Theorem EulerSieve_limit_independent `{vector_impl} (T : int_type) (fuel fuel' : nat)
    (L L' : Z) (s s' : EulerSieve.t) :
  in_range T L -> in_range T L' -> L <= L' ->
  EulerSieve.EulerSieve T fuel L = Ok s -> EulerSieve.EulerSieve T fuel' L' = Ok s' ->
  EulerSieve.primes s `prefix_of` EulerSieve.primes s' /\
  forall n, in_range T n -> Z.abs n <= L ->
    EulerSieve.min_prime_factor T s n = EulerSieve.min_prime_factor T s' n.
Proof.
  intros HT HT' HLL Hs Hs'.
  pose proof (EulerSieve_Ok T fuel L s HT Hs) as Hbuilt.
  pose proof (EulerSieve_Ok T fuel' L' s' HT' Hs') as Hbuilt'.
  pose proof Hbuilt as (_ & HL & _ & _ & Hprimes).
  pose proof Hbuilt' as (_ & HL' & _ & _ & Hprimes').
  split.
  - unfold EulerSieve.primes. rewrite Hprimes, Hprimes'.
    destruct (Z.eq_dec L 0) as [->|];
      [rewrite (primes_between_empty 2 0) by lia; apply prefix_nil|].
    rewrite (primes_between_app 2 L L') by lia. by apply prefix_app_r.
  - intros n Hn HnL.
    rewrite (min_prime_factor_cases T L s n), (min_prime_factor_cases T L' s' n) by done.
    destruct (Z.leb_spec (Z.abs n) 1); [done|].
    destruct (Z.gtb_spec (Z.abs n) L); [lia|]. by destruct (Z.gtb_spec (Z.abs n) L'); [lia|].
Qed.

Lemma EulerSieve_limit_independent_witness :
  exists s s', @EulerSieve.EulerSieve lp64 int32_t 64 30 = Ok s /\
    @EulerSieve.EulerSieve lp64 int32_t 64 50 = Ok s' /\
    EulerSieve.primes s `prefix_of` EulerSieve.primes s' /\
    forall n, in_range int32_t n -> Z.abs n <= 30 ->
      EulerSieve.min_prime_factor int32_t s n = EulerSieve.min_prime_factor int32_t s' n.
Proof.
  do 2 eexists. split; [vm_compute; reflexivity|]. split; [vm_compute; reflexivity|].
  apply (EulerSieve_limit_independent (H := lp64) int32_t 64 64 30 50).
  - unfold in_range, it_min, it_max. simpl. lia.
  - unfold in_range, it_min, it_max. simpl. lia.
  - lia.
  - vm_compute. reflexivity.
  - vm_compute. reflexivity.
Defined.

(** ** [coprime_pairs]: the order of the sequence *)

(** X11.  For [L >= 1] the call [coprime_pairs (L)] returns a sequence
    exactly when the coprime pairs up to [L] fit a vector, as they do
    whenever [(L + 1) ^ 2] pairs fit; the sequence that it returns starts
    with those of the roots [(2, 1)] and [(3, 1)] that are within the limit
    and ends with the boundary pairs [(1, 0)] and [(1, 1)]; every pair
    before the boundary pairs has [1 <= y < x <= L]. *)
Theorem coprime_pairs_order `{vector_impl} (T : int_type) (L : Z) :
  in_range T L -> max_size <= 2 ^ 63 - 1 -> 1 <= L ->
  (returns (fun fuel => coprime_pairs T fuel L) <-> coprime_count L <= max_size) /\
  ((L + 1) * (L + 1) <= max_size -> returns (fun fuel => coprime_pairs T fuel L)) /\
  (forall fuel ps, coprime_pairs T fuel L = Ok ps ->
     exists rest, ps = accepted L seeds ++ rest ++ boundary /\
       forall p, p ∈ accepted L seeds ++ rest -> 1 <= p.2 < p.1 /\ p.1 <= L).
Proof.
  intros HT Hmax HL. split; [|split].
  - rewrite (coprime_pairs_returns_iff T L HT Hmax). split; [|by right].
    intros [?|?]; [lia|done].
  - by apply coprime_pairs_returns.
  - intros fuel ps Hrun.
    destruct (coprime_pairs_Ok T fuel L ps HT HL Hrun)
      as (tree & HL64 & Hlen0 & Hloop & -> & _).
    destruct (tree_run_spec T fuel L tree HT ltac:(lia) Hmax Hlen0 Hloop)
      as (_ & Hbfs & (_ & _ & Hnodes & _) & _).
    destruct (bfs_prefix _ _ _ _ Hbfs) as [rest ->].
    exists rest. split; [by rewrite <- (assoc_L (++))|].
    intros p [[Hp _] HpL]%Hnodes. done.
Qed.

Lemma coprime_pairs_order_witness :
  (returns (fun fuel => @coprime_pairs lp64 int32_t fuel 7) <->
     coprime_count 7 <= @max_size lp64) /\
  ((7 + 1) * (7 + 1) <= @max_size lp64 ->
     returns (fun fuel => @coprime_pairs lp64 int32_t fuel 7)) /\
  (forall fuel ps, @coprime_pairs lp64 int32_t fuel 7 = Ok ps ->
     exists rest, ps = accepted 7 seeds ++ rest ++ boundary /\
       forall p, p ∈ accepted 7 seeds ++ rest -> 1 <= p.2 < p.1 /\ p.1 <= 7).
Proof.
  apply (coprime_pairs_order (H := lp64) int32_t 7).
  - unfold in_range, it_min, it_max. simpl. lia.
  - simpl. lia.
  - lia.
Defined.
